(** * KVStore: an LRU-bounded in-memory key-value store with a write-ahead log

    A shallow embedding of [include/kv_store.hpp] and of the implementation
    file of [kvstore::KVStore], followed by the properties established about
    them.

    Conventions of the embedding.
    - [std::string] is [string]; the character ["010"] is the newline.
    - [std::unordered_map<std::string, CacheEntry>] is [gmap string CacheEntry].
    - [std::list<std::string>] is the sequence of its nodes, front first.  A
      node is a pair of a handle and the key it stores; a
      [std::list::iterator] is the handle of the node it points to, so that
      [erase(it)] removes exactly that node whatever keys the others hold.
      Handles are drawn from the counter [next_node_], which stands for the
      allocator and has no counterpart among the fields of the class.
    - [size_t] values are [nat]: the code only compares them.
    - The file system is a finite map from paths to files; every member
      function that performs I/O takes the disk and returns the new one.
    - A member function that opens with a [std::lock_guard] on [mutex_] is
      one function of the state: no call of another thread runs inside it.
      [recover] takes no lock of its own; it is given both as one function
      and statement by statement ([recover_open], [replay],
      [recover_close]), so that a call of another thread can be placed
      between its statements. *)

From stdpp Require Import gmap strings list fin_maps.
From Stdlib Require Import Ascii.

Local Open Scope string_scope.
Local Open Scope nat_scope.
Local Open Scope list_scope.

(** ** Strings and streams *)

Definition newline : ascii := "010"%char.
Definition space : ascii := " "%char.

(** [std::endl] writes one newline (and flushes). *)
Definition endl : string := String newline "".

(** [std::isspace] in the "C" locale: space, and the range [\t \n \v \f \r]. *)
Definition isspace (c : ascii) : bool :=
  let n := nat_of_ascii c in
  Nat.eqb n 32 || (Nat.leb 9 n && Nat.leb n 13).

(** Leading whitespace skipped by a formatted extraction. *)
Fixpoint skipws (s : string) : string :=
  match s with
  | String c s' => if isspace c then skipws s' else s
  | EmptyString => EmptyString
  end.

(** The maximal whitespace-free prefix, and what follows it. *)
Fixpoint read_word (s : string) : string * string :=
  match s with
  | String c s' =>
      if isspace c then (EmptyString, s)
      else let '(w, r) := read_word s' in (String c w, r)
  | EmptyString => (EmptyString, EmptyString)
  end.

(** [iss >> tok] on a stream whose unread part is [s]: [None] when the
    extraction fails (nothing but whitespace is left), otherwise the token
    and the unread remainder. *)
Definition extract (s : string) : option (string * string) :=
  let '(w, r) := read_word (skipws s) in
  match w with
  | EmptyString => None
  | _ => Some (w, r)
  end.

(** The characters up to the first newline, and what follows that newline. *)
Fixpoint read_until_newline (s : string) : string * string :=
  match s with
  | String c s' =>
      if Ascii.eqb c newline then (EmptyString, s')
      else let '(l, r) := read_until_newline s' in (String c l, r)
  | EmptyString => (EmptyString, EmptyString)
  end.

(** [std::getline(iss, value)] with [value] initially empty, on a stream
    whose unread part is [s].  At end of input the call fails and [value]
    keeps its (empty) content. *)
Definition getline_rest (s : string) : string := (read_until_newline s).1.

(** The lines produced by [while (std::getline(in, line))] over a stream
    holding [s]: the newline-terminated pieces, and a last unterminated one
    when it is not empty. *)
Fixpoint getlines (s : string) : list string :=
  match s with
  | EmptyString => []
  | String c s' =>
      if Ascii.eqb c newline then EmptyString :: getlines s'
      else match getlines s' with
           | [] => [String c EmptyString]
           | l :: ls => String c l :: ls
           end
  end.

(** ** The file system

    A disk maps the paths that exist to files.  A file records its content
    and whether it may be opened for reading and for writing; a path that can
    be neither opened nor created is a file with neither permission.  Opening
    a path that is not on the disk for appending creates it. *)

Record File := mkFile {
  f_data : string;
  f_readable : bool;
  f_writable : bool }.

Abbreviation Disk := (gmap string File).

(** An open or closed [std::ofstream]. *)
Record ofstream := mkOfstream {
  os_path : string;
  os_is_open : bool }.

(** [std::ofstream(path, std::ios::app)]: a missing file is created empty,
    an existing one is opened when it may be written. *)
Definition ofstream_open_app (path : string) (d : Disk) : ofstream * Disk :=
  match d !! path with
  | Some f => (mkOfstream path (f_writable f), d)
  | None => (mkOfstream path true, <[path := mkFile "" true true]> d)
  end.

(** [std::ifstream(path)]: the content when the stream is open. *)
Definition ifstream_open (path : string) (d : Disk) : option string :=
  match d !! path with
  | Some f => if f_readable f then Some (f_data f) else None
  | None => None
  end.

(** [*os << text] followed by a flush: the text is appended to the file. *)
Definition ofstream_write (os : ofstream) (text : string) (d : Disk) : Disk :=
  alter (λ f, mkFile (f_data f +:+ text) (f_readable f) (f_writable f))
        (os_path os) d.

(** ** The class *)

Definition KeyListIterator := nat.

Abbreviation KeyList := (list (KeyListIterator * string)).

Record CacheEntry := mkCacheEntry {
  value : string;
  lru_iter : KeyListIterator }.

Record KVStore := mkKVStore {
  cache_ : gmap string CacheEntry;
  lru_list_ : KeyList;
  next_node_ : nat;
  max_capacity_ : nat;
  wal_path_ : string;
  wal_file_ : option ofstream }.

(** [lru_list_.erase(it)] *)
Definition list_erase (it : KeyListIterator) (l : KeyList) : KeyList :=
  filter (λ n, n.1 ≠ it) l.

(** [lru_list_.pop_back()] *)
Definition list_pop_back (l : KeyList) : KeyList := removelast l.

(** [lru_list_.back()] *)
Definition list_back (l : KeyList) : option string := snd <$> last l.

(** The keys of the recency list, most recently used first. *)
Definition lru_keys (s : KVStore) : list string := (lru_list_ s).*2.

(** Assignment to the index and the recency list, the other fields kept. *)
Definition set_cache (c : gmap string CacheEntry) (l : KeyList) (n : nat)
    (s : KVStore) : KVStore :=
  mkKVStore c l n (max_capacity_ s) (wal_path_ s) (wal_file_ s).

(** Assignment to [wal_file_]. *)
Definition set_wal_file (w : option ofstream) (s : KVStore) : KVStore :=
  mkKVStore (cache_ s) (lru_list_ s) (next_node_ s) (max_capacity_ s)
            (wal_path_ s) w.

(** [KVStore::KVStore(max_capacity, wal_path)] *)
Definition KVStore_new (max_capacity : nat) (wal_path : string) (d : Disk)
    : KVStore * Disk :=
  match wal_path with
  | EmptyString => (mkKVStore ∅ [] 0 max_capacity wal_path None, d)
  | _ =>
      let '(f, d') := ofstream_open_app wal_path d in
      if os_is_open f
      then (mkKVStore ∅ [] 0 max_capacity wal_path (Some f), d')
      else (mkKVStore ∅ [] 0 max_capacity wal_path None, d')
  end.

(** The text [write_wal] sends to the stream. *)
Definition wal_record (operation key value : string) : string :=
  operation +:+ " " +:+ key +:+
  match value with
  | EmptyString => EmptyString
  | _ => " " +:+ value
  end +:+ endl.

(** [KVStore::write_wal(operation, key, value)] *)
Definition write_wal (operation key value : string) (s : KVStore) (d : Disk)
    : Disk :=
  match wal_file_ s with
  | None => d
  | Some f =>
      if os_is_open f then ofstream_write f (wal_record operation key value) d
      else d
  end.

(** [KVStore::evict_lru()] *)
Definition evict_lru (s : KVStore) : KVStore :=
  match list_back (lru_list_ s) with
  | None => s
  | Some lru_key =>
      set_cache (delete lru_key (cache_ s)) (list_pop_back (lru_list_ s))
                (next_node_ s) s
  end.

(** [lru_list_.push_front(key)] followed by storing [{value, begin()}] under
    [key] in the index. *)
Definition link_front (key val : string) (c : gmap string CacheEntry)
    (l : KeyList) (s : KVStore) : KVStore :=
  let it := next_node_ s in
  set_cache (<[key := mkCacheEntry val it]> c) ((it, key) :: l) (S it) s.

(** [KVStore::put(key, value)] *)
Definition put (key val : string) (s : KVStore) (d : Disk)
    : bool * KVStore * Disk :=
  let s' :=
    match cache_ s !! key with
    | Some e =>
        link_front key val (cache_ s) (list_erase (lru_iter e) (lru_list_ s)) s
    | None =>
        let s1 :=
          if decide (max_capacity_ s ≤ size (cache_ s)) then evict_lru s
          else s in
        link_front key val (cache_ s1) (lru_list_ s1) s1
    end in
  (true, s', write_wal "PUT" key val s' d).

(** [KVStore::get(key)] *)
Definition get (key : string) (s : KVStore) : option string * KVStore :=
  match cache_ s !! key with
  | None => (None, s)
  | Some e =>
      (Some (value e),
       link_front key (value e) (cache_ s)
                  (list_erase (lru_iter e) (lru_list_ s)) s)
  end.

(** [KVStore::touch(key)], the private helper that marks a key as recently
    used; no member function calls it, [get] and [put] inline its body. *)
Definition touch (key : string) (s : KVStore) : KVStore :=
  match cache_ s !! key with
  | Some e =>
      link_front key (value e) (cache_ s)
                 (list_erase (lru_iter e) (lru_list_ s)) s
  | None => s
  end.

(** [KVStore::del(key)] *)
Definition del (key : string) (s : KVStore) (d : Disk)
    : bool * KVStore * Disk :=
  match cache_ s !! key with
  | None => (false, s, d)
  | Some e =>
      let s' :=
        set_cache (delete key (cache_ s))
                  (list_erase (lru_iter e) (lru_list_ s)) (next_node_ s) s in
      (true, s', write_wal "DEL" key "" s' d)
  end.

(** [KVStore::exists(key)] *)
Definition exists_ (key : string) (s : KVStore) : bool :=
  bool_decide (is_Some (cache_ s !! key)).

(** [KVStore::size()] *)
Definition size_ (s : KVStore) : nat := size (cache_ s).

(** [KVStore::clear()] *)
Definition clear (s : KVStore) (d : Disk) : KVStore * Disk :=
  let s' := set_cache ∅ [] (next_node_ s) s in
  (s', write_wal "CLEAR" "" "" s' d).

(** The body of the replay loop of [recover] for one line of the log. *)
Definition replay_line (line : string) (s : KVStore) (d : Disk)
    : KVStore * Disk :=
  match extract line with
  | None => (s, d)
  | Some (op, r1) =>
      if decide (op = "PUT") then
        match extract r1 with
        | None => (s, d)
        | Some (key, r2) =>
            let val := getline_rest r2 in
            let val :=
              match val with
              | String c v' => if Ascii.eqb c space then v' else val
              | EmptyString => val
              end in
            let '(_, s', d') := put key val s d in (s', d')
        end
      else if decide (op = "DEL") then
        match extract r1 with
        | None => (s, d)
        | Some (key, _) => let '(_, s', d') := del key s d in (s', d')
        end
      else if decide (op = "CLEAR") then clear s d
      else (s, d)
  end.

(** The replay loop: the lines of the log, first to last. *)
Definition replay (lines : list string) (s : KVStore) (d : Disk)
    : KVStore * Disk :=
  foldl (λ w line, replay_line line w.1 w.2) (s, d) lines.

(** [KVStore::recover()] *)
Definition recover (s : KVStore) (d : Disk) : bool * KVStore * Disk :=
  match wal_path_ s with
  | EmptyString => (false, s, d)
  | _ =>
      match ifstream_open (wal_path_ s) d with
      | None => (false, s, d)
      | Some content =>
          let temp_wal := wal_file_ s in
          let '(s', d') :=
            replay (getlines content) (set_wal_file None s) d in
          (true, set_wal_file temp_wal s', d')
      end
  end.

(** ** Sequences of calls on the public interface *)

Inductive Call :=
  | CallPut (key val : string)
  | CallGet (key : string)
  | CallDel (key : string)
  | CallExists (key : string)
  | CallSize
  | CallClear.

Inductive Ret :=
  | RetBool (b : bool)
  | RetValue (o : option string)
  | RetSize (n : nat)
  | RetVoid.

(** One call: what it returns, the store and the disk it leaves. *)
Definition call (c : Call) (s : KVStore) (d : Disk) : Ret * KVStore * Disk :=
  match c with
  | CallPut k v => let '(b, s', d') := put k v s d in (RetBool b, s', d')
  | CallGet k => let '(o, s') := get k s in (RetValue o, s', d)
  | CallDel k => let '(b, s', d') := del k s d in (RetBool b, s', d')
  | CallExists k => (RetBool (exists_ k s), s, d)
  | CallSize => (RetSize (size_ s), s, d)
  | CallClear => let '(s', d') := clear s d in (RetVoid, s', d')
  end.

(** A sequence of calls, first to last. *)
Definition run (cs : list Call) (s : KVStore) (d : Disk) : KVStore * Disk :=
  foldl (λ w c, ((call c w.1 w.2).1.2, (call c w.1 w.2).2)) (s, d) cs.

(** What the calls of a sequence return, first to last. *)
Fixpoint trace (cs : list Call) (s : KVStore) (d : Disk) : list Ret :=
  match cs with
  | [] => []
  | c :: cs' =>
      (call c s d).1.1 :: trace cs' (call c s d).1.2 (call c s d).2
  end.

(** ** The representation invariant

    The node handles of the recency list are pairwise distinct and below the
    allocation counter; every index entry holds the handle of a node that
    stores its key; every node stores a key of the index whose entry holds
    the handle of that very node. *)

Record wf_parts (c : gmap string CacheEntry) (l : KeyList) (n : nat) : Prop :=
  mk_wf_parts {
    wf_nodup : NoDup l.*1;
    wf_index : ∀ k e, c !! k = Some e → (lru_iter e, k) ∈ l;
    wf_list : ∀ it k, (it, k) ∈ l → ∃ e, c !! k = Some e ∧ lru_iter e = it;
    wf_fresh : ∀ it k, (it, k) ∈ l → it < n }.

Definition wf (s : KVStore) : Prop :=
  wf_parts (cache_ s) (lru_list_ s) (next_node_ s).

(** The bound on the number of entries. *)
Definition bounded (s : KVStore) : Prop := size (cache_ s) ≤ max_capacity_ s.

(** What [call] preserves: the representation invariant, the capacity chosen
    at construction, and the bound. *)
Definition inv (C : nat) (s : KVStore) : Prop :=
  wf s ∧ max_capacity_ s = C ∧ size (cache_ s) ≤ C.

(** ** What a client can observe of a store *)

(** The resident keys and the value bound to each. *)
Definition contents (s : KVStore) : gmap string string := value <$> cache_ s.

(** ** The recency order on its own

    What each call does to the sequence of resident keys, most recently used
    first, for a store of capacity [C]. *)

Definition move_to_front (key : string) (ks : list string) : list string :=
  key :: filter (λ k, k ≠ key) ks.

Definition keys_after (C : nat) (cl : Call) (ks : list string) : list string :=
  match cl with
  | CallPut key _ =>
      if decide (key ∈ ks) then move_to_front key ks
      else if decide (C ≤ length ks) then key :: removelast ks
      else key :: ks
  | CallGet key => if decide (key ∈ ks) then move_to_front key ks else ks
  | CallDel key => filter (λ k, k ≠ key) ks
  | CallClear => []
  | CallExists _ | CallSize => ks
  end.

(** ** The log seen as a sequence of calls *)

(** The call that the replay loop of [recover] issues for a line, if any. *)
Definition decode_line (line : string) : option Call :=
  match extract line with
  | None => None
  | Some (op, r1) =>
      if decide (op = "PUT") then
        match extract r1 with
        | None => None
        | Some (key, r2) =>
            let val := getline_rest r2 in
            Some (CallPut key
                    match val with
                    | String c v' => if Ascii.eqb c space then v' else val
                    | EmptyString => val
                    end)
        end
      else if decide (op = "DEL") then
        match extract r1 with
        | None => None
        | Some (key, _) => Some (CallDel key)
        end
      else if decide (op = "CLEAR") then Some CallClear
      else None
  end.

(** The line [write_wal] produces for a call, when the call is logged: a
    [del] of an absent key returns before [write_wal], as do [get], [exists]
    and [size] always. *)
Definition logged_line (cl : Call) (s : KVStore) : option string :=
  match cl with
  | CallPut k v =>
      Some ("PUT" +:+ " " +:+ k +:+
            match v with EmptyString => EmptyString | _ => " " +:+ v end)
  | CallDel k =>
      match cache_ s !! k with
      | Some _ => Some ("DEL" +:+ " " +:+ k)
      | None => None
      end
  | CallClear => Some ("CLEAR" +:+ " ")
  | CallGet _ | CallExists _ | CallSize => None
  end.

(** What a call appends to the log. *)
Definition appended (cl : Call) (s : KVStore) : string :=
  match logged_line cl s with
  | Some line => line +:+ endl
  | None => ""
  end.

(** ** Statements taken from the specification *)

(** Every character of [s] satisfies [p]. *)
Fixpoint string_forall (p : ascii → bool) (s : string) : bool :=
  match s with
  | EmptyString => true
  | String c s' => p c && string_forall p s'
  end.

Definition nonempty (s : string) : bool :=
  match s with
  | EmptyString => false
  | String _ _ => true
  end.

Definition no_newline (s : string) : bool :=
  string_forall (λ c, negb (Ascii.eqb c newline)) s.

(** A key as the round-trip property of the specification restricts it:
    not empty, no space. *)
Definition key_no_space (k : string) : bool :=
  nonempty k && string_forall (λ c, negb (Ascii.eqb c space)) k.

(** A key that a formatted extraction reads back whole: not empty, no
    character of [isspace]. *)
Definition key_no_whitespace (k : string) : bool :=
  nonempty k && string_forall (λ c, negb (isspace c)) k.

(** The calls of a round-trip sequence: [put], [del] and [clear], with keys
    accepted by [key_ok] and values free of newlines. *)
Definition roundtrip_call (key_ok : string → bool) (cl : Call) : bool :=
  match cl with
  | CallPut k v => key_ok k && no_newline v
  | CallDel k => key_ok k
  | CallClear => true
  | CallGet _ | CallExists _ | CallSize => false
  end.

(** The round-trip experiment: a store over [wal_path] runs [cs]; a second
    store of the same capacity is then constructed over the same path and
    recovers.  The result is the first store, and what [recover] returned
    together with the second store. *)
Definition round_trip (C : nat) (wal_path : string) (d : Disk)
    (cs : list Call) : KVStore * (bool * KVStore) :=
  let '(s0, d0) := KVStore_new C wal_path d in
  let '(s1, d1) := run cs s0 d0 in
  let '(s2, d2) := KVStore_new C wal_path d1 in
  let '(b, s3, _) := recover s2 d2 in
  (s1, (b, s3)).

(** The log file does not exist yet, or is empty and may be read and
    written. *)
Definition log_fresh (wal_path : string) (d : Disk) : Prop :=
  d !! wal_path = None ∨ d !! wal_path = Some (mkFile "" true true).

(** The record layout as the specification words it: the fields that exist
    for the operation, separated by single spaces. *)
Definition spec_record_line (cl : Call) : option string :=
  match cl with
  | CallPut k v => Some ("PUT" +:+ " " +:+ k +:+ " " +:+ v)
  | CallDel k => Some ("DEL" +:+ " " +:+ k)
  | CallClear => Some "CLEAR"
  | CallGet _ | CallExists _ | CallSize => None
  end.

(** The content of the file at [path]. *)
Definition file_data (path : string) (d : Disk) : option string :=
  f_data <$> d !! path.

(** The calls that change the store and are written to the log. *)
Definition mutating (cl : Call) : bool :=
  match cl with
  | CallPut _ _ | CallDel _ | CallClear => true
  | CallGet _ | CallExists _ | CallSize => false
  end.

(** A text made of the given lines, each ended by a newline. *)
Definition unlines (ls : list string) : string :=
  foldr (λ l acc, l +:+ endl +:+ acc) "" ls.

(** A key without a space, but with a horizontal tab. *)
Definition tab : ascii := "009"%char.
Definition key_with_tab : string := String "a" (String tab (String "b" "")).

(** ** The store as an association list

    The entries of a store in recency order, and an LRU cache written
    directly on such lists, against which the member functions are
    compared. *)

(** The entry a node of the recency list stands for: its key, with the
    value the index binds the key to. *)
Definition entry_of (c : gmap string CacheEntry)
    (nd : KeyListIterator * string) : option (string * string) :=
  (λ e, (nd.2, value e)) <$> c !! nd.2.

(** The entries of the store, most recently used first. *)
Definition entries (s : KVStore) : list (string * string) :=
  omap (entry_of (cache_ s)) (lru_list_ s).

(** The value of the first entry with key [k]. *)
Fixpoint assoc (k : string) (m : list (string * string)) : option string :=
  match m with
  | [] => None
  | e :: m' => if decide (e.1 = k) then Some e.2 else assoc k m'
  end.

(** The entries with a key other than [k]. *)
Definition drop_key (k : string) (m : list (string * string))
    : list (string * string) :=
  filter (λ e, e.1 ≠ k) m.

(** One call on the list, for capacity [C]: what it returns and the list it
    leaves. *)
Definition model_call (C : nat) (cl : Call) (m : list (string * string))
    : Ret * list (string * string) :=
  match cl with
  | CallPut k v =>
      (RetBool true,
       match assoc k m with
       | Some _ => (k, v) :: drop_key k m
       | None =>
           if decide (C ≤ length m) then (k, v) :: removelast m
           else (k, v) :: m
       end)
  | CallGet k =>
      match assoc k m with
      | Some v => (RetValue (Some v), (k, v) :: drop_key k m)
      | None => (RetValue None, m)
      end
  | CallDel k =>
      match assoc k m with
      | Some _ => (RetBool true, drop_key k m)
      | None => (RetBool false, m)
      end
  | CallExists k => (RetBool (bool_decide (is_Some (assoc k m))), m)
  | CallSize => (RetSize (length m), m)
  | CallClear => (RetVoid, [])
  end.

(** A sequence of calls on the list: the list it leaves, and what the calls
    return. *)
Definition model_run (C : nat) (cs : list Call) (m : list (string * string))
    : list (string * string) :=
  foldl (λ m cl, (model_call C cl m).2) m cs.

Fixpoint model_trace (C : nat) (cs : list Call) (m : list (string * string))
    : list Ret :=
  match cs with
  | [] => []
  | cl :: cs' => (model_call C cl m).1 :: model_trace C cs' (model_call C cl m).2
  end.

(** ** The calls that reach the log *)

(** The calls of a sequence run from [s] that write a record, in order: the
    others return before [write_wal] or never call it. *)
Fixpoint logged_calls (cs : list Call) (s : KVStore) : list Call :=
  match cs with
  | [] => []
  | cl :: cs' =>
      match logged_line cl s with
      | Some _ => cl :: logged_calls cs' (call cl s ∅).1.2
      | None => logged_calls cs' (call cl s ∅).1.2
      end
  end.

(** The calls of a sequence that may be journaled: reads are unrestricted,
    [put] and [del] have keys without whitespace and values without
    newline. *)
Definition journalable (cl : Call) : bool :=
  negb (mutating cl) || roundtrip_call key_no_whitespace cl.

(** ** The demonstration program

    [main] of the example: the calls it makes on [KVStore store(5,
    "demo_wal.log")], in order; what it prints is what they return. *)

Definition example_calls : list Call :=
  [CallPut "name" "Alice"; CallPut "age" "30"; CallPut "city" "New York";
   CallGet "name"; CallGet "age"; CallGet "city"; CallSize;
   CallPut "age" "31"; CallGet "age";
   CallExists "city"; CallDel "city"; CallExists "city"; CallSize;
   CallPut "key1" "value1"; CallPut "key2" "value2";
   CallPut "key3" "value3"; CallPut "key4" "value4"; CallSize;
   CallPut "key5" "value5"; CallSize; CallExists "name"; CallExists "age";
   CallGet "age"; CallPut "key6" "value6"; CallExists "age";
   CallExists "key1"; CallSize].

Definition example_main (d : Disk) : list Ret * Disk :=
  let w0 := KVStore_new 5 "demo_wal.log" d in
  (trace example_calls w0.1 w0.2, (run example_calls w0.1 w0.2).2).

(** ** Two restarts

    A store over [wal_path] runs [cs1]; a second store of the same capacity
    is constructed over the same path, recovers, and runs [cs2]; a third one
    is constructed over the path and recovers.  The result is the second
    store at its end, what the two [recover] calls returned, and the third
    store. *)
Definition two_generations (C : nat) (wal_path : string) (d : Disk)
    (cs1 cs2 : list Call) : KVStore * (bool * bool * KVStore) :=
  let '(s0, d0) := KVStore_new C wal_path d in
  let '(_, d1) := run cs1 s0 d0 in
  let '(s2, d2) := KVStore_new C wal_path d1 in
  let '(b2, s2', d2') := recover s2 d2 in
  let '(s3, d3) := run cs2 s2' d2' in
  let '(s4, d4) := KVStore_new C wal_path d3 in
  let '(b4, s4', _) := recover s4 d4 in
  (s3, (b2, b4, s4')).

(** ** The lines of a log

    The shapes a line of the log can take, written out character by
    character, with the call the replay loop of [recover] issues for each. *)

(** The line [write_wal] produces for a [put], a [del] or a [clear]. *)
Definition record_line (cl : Call) : string :=
  match cl with
  | CallPut k v =>
      "PUT" +:+ " " +:+ k +:+
      match v with EmptyString => EmptyString | _ => " " +:+ v end
  | CallDel k => "DEL" +:+ " " +:+ k
  | CallClear => "CLEAR" +:+ " "
  | CallGet _ | CallExists _ | CallSize => EmptyString
  end.

(** Nothing but whitespace. *)
Definition blank (s : string) : bool := string_forall isspace s.

(** Empty, or starting with whitespace. *)
Definition starts_blank (s : string) : bool :=
  match s with
  | EmptyString => true
  | String c _ => isspace c
  end.

Inductive log_item :=
  | ItemRecord (cl : Call)
  | ItemDelTrail (k : string) (c : ascii) (rest : string)
  | ItemClearTrail (c : ascii) (rest : string)
  | ItemBlank (ws : string)
  | ItemUnknown (ws op rest : string)
  | ItemNoKey (ws op ws' : string).

(** The text of the line. *)
Definition item_line (it : log_item) : string :=
  match it with
  | ItemRecord cl => record_line cl
  | ItemDelTrail k c rest => "DEL" +:+ " " +:+ k +:+ String c rest
  | ItemClearTrail c rest => "CLEAR" +:+ String c rest
  | ItemBlank ws => ws
  | ItemUnknown ws op rest => ws +:+ op +:+ rest
  | ItemNoKey ws op ws' => ws +:+ op +:+ ws'
  end.

(** The conditions on the parts of the line:
    - a record as [write_wal] writes it, for a key without whitespace and a
      value without newline;
    - a [DEL] record followed by whitespace and any text;
    - the name [CLEAR] followed by whitespace and any text;
    - a line of whitespace, possibly empty;
    - a line whose first word is none of [PUT], [DEL] and [CLEAR];
    - [PUT] or [DEL] with nothing but whitespace after it. *)
Definition item_ok (it : log_item) : bool :=
  match it with
  | ItemRecord cl => roundtrip_call key_no_whitespace cl
  | ItemDelTrail k c _ => key_no_whitespace k && isspace c
  | ItemClearTrail c _ => isspace c
  | ItemBlank ws => blank ws
  | ItemUnknown ws op rest =>
      blank ws && key_no_whitespace op && starts_blank rest &&
      bool_decide (op ≠ "PUT" ∧ op ≠ "DEL" ∧ op ≠ "CLEAR")
  | ItemNoKey ws op ws' =>
      blank ws && bool_decide (op = "PUT" ∨ op = "DEL") && blank ws'
  end.

(** The call issued for the line: none for the last three shapes. *)
Definition item_call (it : log_item) : option Call :=
  match it with
  | ItemRecord cl => Some cl
  | ItemDelTrail k _ _ => Some (CallDel k)
  | ItemClearTrail _ _ => Some CallClear
  | ItemBlank _ | ItemUnknown _ _ _ | ItemNoKey _ _ _ => None
  end.

(** A line that follows the record layout of the specification: one of
    [PUT <key> <value...>], [DEL <key>] and [CLEAR], for a key that is not
    empty and holds no space.  Any other line is malformed. *)
Definition spec_well_formed (line : string) : Prop :=
  ∃ cl, roundtrip_call key_no_space cl = true ∧
        spec_record_line cl = Some line.

(** ** [recover] statement by statement

    [recover] opens with no [std::lock_guard]: it holds the mutex only
    inside the [put], [del] and [clear] it calls, so that a call of another
    thread can run between any two of its statements. *)

(** The checks, the opening of the log and [temp_wal =
    std::move(wal_file_)]: the lines to replay, the stream moved away, and
    the store left without it. *)
Definition recover_open (s : KVStore) (d : Disk)
    : option (list string * option ofstream * KVStore) :=
  match wal_path_ s with
  | EmptyString => None
  | _ =>
      match ifstream_open (wal_path_ s) d with
      | None => None
      | Some content =>
          Some (getlines content, wal_file_ s, set_wal_file None s)
      end
  end.

(** [wal_file_ = std::move(temp_wal)] *)
Definition recover_close (temp_wal : option ofstream) (s : KVStore)
    : KVStore :=
  set_wal_file temp_wal s.

(** The schedule in which another thread's [put(key, val)] runs after
    [recover] has moved the stream away and before it replays the log:
    what the [put] returns, and the store and the disk when [recover]
    returns.  [None] when [recover] returns at one of its checks. *)
Definition recover_put_between (key val : string) (s : KVStore) (d : Disk)
    : option (bool * KVStore * Disk) :=
  match recover_open s d with
  | None => None
  | Some (ls, temp_wal, s0) =>
      let '(b, s1, d1) := put key val s0 d in
      let '(s2, d2) := replay ls s1 d1 in
      Some (b, recover_close temp_wal s2, d2)
  end.

(** ** Tactics *)

(** Membership in a list written out, with the equations among its keys. *)
Ltac solve_elem_of :=
  rewrite ?elem_of_cons, ?elem_of_nil; intuition congruence.

(** ** The representation invariant is established and preserved *)

Section invariant.
Implicit Types (c : gmap string CacheEntry) (l : KeyList) (n it : nat).
Implicit Types (k key val : string) (s : KVStore) (d : Disk).

Lemma fst_determines_snd l it k1 k2 :
  NoDup l.*1 → (it, k1) ∈ l → (it, k2) ∈ l → k1 = k2.
Proof.
  induction l as [|[i k] l IH]; csimpl; intros Hnd H1 H2.
  - by apply elem_of_nil in H1.
  - apply NoDup_cons in Hnd as [Hi Hnd].
    apply elem_of_cons in H1 as [H1|H1], H2 as [H2|H2]; simplify_eq; auto.
    + destruct Hi. apply list_elem_of_fmap. by exists (i, k2).
    + destruct Hi. apply list_elem_of_fmap. by exists (i, k1).
Qed.

Lemma wf_keys_nodup c l n : wf_parts c l n → NoDup l.*2.
Proof.
  intros [Hnd _ Hl _]. apply NoDup_fmap_2_strong.
  - intros [i1 k1] [i2 k2] H1 H2 ?; simplify_eq/=.
    destruct (Hl _ _ H1) as (e1 & He1 & <-).
    destruct (Hl _ _ H2) as (e2 & He2 & <-). congruence.
  - by apply NoDup_fmap_1 with fst.
Qed.

Lemma wf_elem_of_keys c l n k :
  wf_parts c l n → k ∈ l.*2 ↔ is_Some (c !! k).
Proof.
  intros [_ Hc Hl _]. rewrite list_elem_of_fmap. split.
  - intros ([it k'] & -> & Hin). destruct (Hl _ _ Hin) as (e & He & _). eauto.
  - intros [e He]. exists (lru_iter e, k). eauto.
Qed.

Lemma wf_dom c l n :
  wf_parts c l n → dom c = list_to_set l.*2.
Proof.
  intros Hwf. apply set_eq. intros k.
  rewrite elem_of_dom, elem_of_list_to_set. symmetry.
  by eapply wf_elem_of_keys.
Qed.

Lemma wf_size c l n : wf_parts c l n → size c = length l.
Proof.
  intros Hwf. rewrite <- size_dom, (wf_dom _ _ _ Hwf).
  rewrite size_list_to_set by eauto using wf_keys_nodup.
  by rewrite length_fmap.
Qed.

Lemma filter_iff_elem_of {A} (P Q : A → Prop)
    `{!∀ x, Decision (P x), !∀ x, Decision (Q x)} (xs : list A) :
  (∀ x, x ∈ xs → P x ↔ Q x) → filter P xs = filter Q xs.
Proof.
  induction xs as [|x xs IH]; intros HPQ; [done|].
  rewrite !filter_cons.
  rewrite IH by (intros; apply HPQ; by right).
  pose proof (HPQ x (list_elem_of_here _ _)) as Hx.
  destruct (decide (P x)) as [HP|HP], (decide (Q x)) as [HQ|HQ];
    try done; [destruct HQ|destruct HP]; by apply Hx.
Qed.

(** Erasing through the handle stored under [k] removes the node of [k]. *)
Lemma wf_erase c l n k e :
  wf_parts c l n → c !! k = Some e →
  list_erase (lru_iter e) l = filter (λ nd, nd.2 ≠ k) l.
Proof.
  intros Hwf He. apply filter_iff_elem_of. intros [i k'] Hin; simpl.
  pose proof (wf_index _ _ _ Hwf _ _ He) as Hk.
  split; intros Hne ->; apply Hne.
  - destruct (wf_list _ _ _ Hwf _ _ Hin) as (e' & He' & <-). congruence.
  - eapply fst_determines_snd; eauto using wf_nodup.
Qed.

(** *** Construction establishes the invariant *)

Lemma wf_KVStore_new max_capacity wal_path d :
  wf (KVStore_new max_capacity wal_path d).1.
Proof.
  assert (wf_parts ∅ [] 0) as Hwf.
  { split; [constructor|done|..]; intros ?? []%elem_of_nil. }
  unfold KVStore_new, wf. destruct wal_path; [done|].
  destruct (ofstream_open_app _ _) as [f d']. by destruct (os_is_open f).
Qed.

Lemma bounded_KVStore_new max_capacity wal_path d :
  bounded (KVStore_new max_capacity wal_path d).1.
Proof.
  unfold KVStore_new, bounded. destruct wal_path; simpl.
  - rewrite map_size_empty. lia.
  - destruct (ofstream_open_app _ _) as [f d'].
    destruct (os_is_open f); simpl; rewrite map_size_empty; lia.
Qed.

(** *** Linking a node at the front *)

Lemma wf_link_front key val c l s :
  NoDup l.*1 →
  (∀ it k, (it, k) ∈ l →
     it < next_node_ s ∧ k ≠ key ∧ ∃ e, c !! k = Some e ∧ lru_iter e = it) →
  (∀ k e, k ≠ key → c !! k = Some e → (lru_iter e, k) ∈ l) →
  wf (link_front key val c l s).
Proof.
  intros Hnd Hl Hc. unfold wf, link_front; simpl. split.
  - csimpl. apply NoDup_cons. split; [|done].
    intros ([it k] & Hit & Hin)%list_elem_of_fmap; simpl in Hit; subst it.
    destruct (Hl _ _ Hin) as [Hlt _]. lia.
  - intros k e. destruct (decide (k = key)) as [->|Hne].
    + rewrite lookup_insert_eq. intros [= <-]. left.
    + rewrite lookup_insert_ne by done. intros He. right. eauto.
  - intros it k [[= -> ->]|Hin]%elem_of_cons.
    + rewrite lookup_insert_eq. eauto.
    + destruct (Hl _ _ Hin) as (_ & Hne & e & He & Hit).
      rewrite lookup_insert_ne by done. eauto.
  - intros it k [[= -> ->]|Hin]%elem_of_cons; [lia|].
    destruct (Hl _ _ Hin) as [Hlt _]. lia.
Qed.

Lemma wf_erase_link key val e s :
  wf s → cache_ s !! key = Some e →
  wf (link_front key val (cache_ s)
        (list_erase (lru_iter e) (lru_list_ s)) s).
Proof.
  intros Hwf He. apply wf_link_front.
  - eapply sublist_NoDup; [apply (wf_nodup _ _ _ Hwf)|].
    apply fmap_sublist, sublist_filter.
  - intros it k [Hit Hin]%list_elem_of_filter; simpl in Hit.
    split; [by eapply wf_fresh|].
    destruct (wf_list _ _ _ Hwf _ _ Hin) as (e' & He' & <-).
    split; [congruence|eauto].
  - intros k e' Hne He'. apply list_elem_of_filter; simpl.
    pose proof (wf_index _ _ _ Hwf _ _ He) as Hin.
    pose proof (wf_index _ _ _ Hwf _ _ He') as Hin'.
    split; [|done]. intros Heq. rewrite Heq in Hin'.
    apply Hne. eapply fst_determines_snd; eauto using wf_nodup.
Qed.

Lemma wf_new_link key val s :
  wf s → cache_ s !! key = None →
  wf (link_front key val (cache_ s) (lru_list_ s) s).
Proof.
  intros Hwf Hnone. apply wf_link_front.
  - apply (wf_nodup _ _ _ Hwf).
  - intros it k Hin. split; [by eapply wf_fresh|].
    destruct (wf_list _ _ _ Hwf _ _ Hin) as (e' & He' & <-).
    split; [congruence|eauto].
  - intros k e _ He. by eapply wf_index.
Qed.

(** *** Eviction *)

Lemma evict_lru_snoc s l it k :
  lru_list_ s = l ++ [(it, k)] →
  evict_lru s = set_cache (delete k (cache_ s)) l (next_node_ s) s.
Proof.
  intros Hl. unfold evict_lru, list_back, list_pop_back.
  by rewrite Hl, last_snoc, removelast_last.
Qed.

Lemma evict_lru_nil s : lru_list_ s = [] → evict_lru s = s.
Proof. intros Hl. unfold evict_lru, list_back. by rewrite Hl. Qed.

Lemma wf_evict_lru s : wf s → wf (evict_lru s).
Proof.
  intros Hwf. destruct (lru_list_ s) as [|x l0] eqn:Hl using rev_ind.
  { by rewrite evict_lru_nil. }
  clear IHl0. destruct x as [it k]. rewrite (evict_lru_snoc _ _ _ _ Hl).
  unfold wf in *; simpl. rewrite Hl in Hwf.
  pose proof (wf_keys_nodup _ _ _ Hwf) as Hkeys.
  rewrite fmap_app in Hkeys. apply NoDup_app in Hkeys as (_ & Hdisj & _).
  destruct Hwf as [Hnd Hc Hlst Hfr]. split.
  - rewrite fmap_app in Hnd. by apply NoDup_app in Hnd as [? _].
  - intros k' e [Hne He]%lookup_delete_Some.
    apply Hc, elem_of_app in He as [?|[=]%list_elem_of_singleton]; congruence.
  - intros it' k' Hin.
    destruct (Hlst it' k') as (e & He & Hit); [apply elem_of_app; by left|].
    exists e. split; [|done]. rewrite lookup_delete_ne; [done|].
    intros ->. apply (Hdisj k').
    + apply list_elem_of_fmap. by exists (it', k').
    + csimpl. left.
  - intros it' k' Hin. apply (Hfr it' k'), elem_of_app. by left.
Qed.

Lemma evict_lru_lookup_None s key :
  cache_ s !! key = None → cache_ (evict_lru s) !! key = None.
Proof.
  intros Hnone. unfold evict_lru. destruct (list_back _); simpl; [|done].
  apply lookup_delete_None. by right.
Qed.

Lemma evict_lru_size s :
  wf s → size (cache_ (evict_lru s)) = pred (size (cache_ s)).
Proof.
  intros Hwf. pose proof (wf_size _ _ _ Hwf) as Hsz.
  pose proof (wf_size _ _ _ (wf_evict_lru _ Hwf)) as Hsz'.
  rewrite Hsz, Hsz'.
  destruct (lru_list_ s) as [|[it k] l0] eqn:Hl using rev_ind.
  { by rewrite evict_lru_nil, Hl. }
  rewrite (evict_lru_snoc _ _ _ _ Hl); simpl.
  rewrite length_app; simpl. lia.
Qed.

Lemma evict_lru_params s :
  max_capacity_ (evict_lru s) = max_capacity_ s ∧
  wal_path_ (evict_lru s) = wal_path_ s ∧
  wal_file_ (evict_lru s) = wal_file_ s ∧
  next_node_ (evict_lru s) = next_node_ s.
Proof. unfold evict_lru. by destruct (list_back _). Qed.

(** *** Each member function preserves the invariant *)

Lemma link_front_params key val c l s :
  max_capacity_ (link_front key val c l s) = max_capacity_ s ∧
  wal_path_ (link_front key val c l s) = wal_path_ s ∧
  wal_file_ (link_front key val c l s) = wal_file_ s.
Proof. done. Qed.

Lemma wf_put key val s d : wf s → wf (put key val s d).1.2.
Proof.
  intros Hwf. unfold put; simpl.
  destruct (cache_ s !! key) as [e|] eqn:He.
  - by apply wf_erase_link.
  - case_decide.
    + apply wf_new_link; [by apply wf_evict_lru|].
      by apply evict_lru_lookup_None.
    + by apply wf_new_link.
Qed.

Lemma put_max_capacity key val s d :
  max_capacity_ (put key val s d).1.2 = max_capacity_ s.
Proof.
  unfold put; simpl. destruct (cache_ s !! key); [done|].
  case_decide; simpl; [|done]. apply evict_lru_params.
Qed.

Lemma bounded_put key val s d :
  wf s → 0 < max_capacity_ s → bounded s → bounded (put key val s d).1.2.
Proof.
  intros Hwf Hpos Hb. unfold bounded in *. rewrite put_max_capacity.
  unfold put; simpl. destruct (cache_ s !! key) as [e|] eqn:He; simpl.
  - rewrite map_size_insert_Some; eauto.
  - case_decide as Hfull; simpl.
    + rewrite map_size_insert_None by by apply evict_lru_lookup_None.
      rewrite evict_lru_size by done. lia.
    + rewrite map_size_insert_None by done. lia.
Qed.

Lemma wf_get key s : wf s → wf (get key s).2.
Proof.
  intros Hwf. unfold get. destruct (cache_ s !! key) as [e|] eqn:He; [|done].
  by apply wf_erase_link.
Qed.

(** [get] does to the store what [touch] does. *)
Lemma get_touch key s : (get key s).2 = touch key s.
Proof. unfold get, touch. by destruct (cache_ s !! key). Qed.

Lemma get_max_capacity key s : max_capacity_ (get key s).2 = max_capacity_ s.
Proof. unfold get. by destruct (cache_ s !! key). Qed.

Lemma bounded_get key s : bounded s → bounded (get key s).2.
Proof.
  unfold bounded. rewrite get_max_capacity. unfold get.
  destruct (cache_ s !! key) as [e|] eqn:He; [simpl|done].
  rewrite map_size_insert_Some; eauto.
Qed.

Lemma wf_del key s d : wf s → wf (del key s d).1.2.
Proof.
  intros Hwf. unfold del. destruct (cache_ s !! key) as [e|] eqn:He; [|done].
  unfold wf; simpl. split.
  - eapply sublist_NoDup; [apply (wf_nodup _ _ _ Hwf)|].
    apply fmap_sublist, sublist_filter.
  - intros k e' [Hne He']%lookup_delete_Some.
    apply list_elem_of_filter; simpl.
    pose proof (wf_index _ _ _ Hwf _ _ He) as Hin.
    pose proof (wf_index _ _ _ Hwf _ _ He') as Hin'.
    split; [|done]. intros Heq. rewrite Heq in Hin'.
    apply Hne. eapply fst_determines_snd; eauto using wf_nodup.
  - intros it k [Hit Hin]%list_elem_of_filter; simpl in Hit.
    destruct (wf_list _ _ _ Hwf _ _ Hin) as (e' & He' & <-).
    exists e'. split; [|done]. rewrite lookup_delete_ne; congruence.
  - intros it k [_ Hin]%list_elem_of_filter. by eapply wf_fresh.
Qed.

Lemma del_max_capacity key s d :
  max_capacity_ (del key s d).1.2 = max_capacity_ s.
Proof. unfold del. by destruct (cache_ s !! key). Qed.

Lemma bounded_del key s d : bounded s → bounded (del key s d).1.2.
Proof.
  unfold bounded. rewrite del_max_capacity. unfold del.
  destruct (cache_ s !! key) as [e|] eqn:He; [simpl|done].
  rewrite map_size_delete_Some by eauto. lia.
Qed.

Lemma wf_clear s d : wf (clear s d).1.
Proof.
  unfold wf; simpl. split; [constructor|done|..]; intros ?? []%elem_of_nil.
Qed.

Lemma bounded_clear s d : bounded (clear s d).1.
Proof. unfold bounded; simpl. rewrite map_size_empty. lia. Qed.

(** The state after a sequence of calls satisfies [P] when the initial
    state does and every call preserves it. *)
Lemma run_ind (P : KVStore → Prop) :
  (∀ (cl : Call) s d, P s → P (call cl s d).1.2) →
  ∀ cs s d, P s → P (run cs s d).1.
Proof.
  intros Hstep cs. unfold run.
  induction cs as [|cl cs IH] using rev_ind; intros s d HP; [done|].
  rewrite foldl_app; simpl. by apply Hstep, IH.
Qed.

Lemma call_state (cl : Call) s d :
  (call cl s d).1.2 =
  match cl with
  | CallPut k v => (put k v s d).1.2
  | CallGet k => (get k s).2
  | CallDel k => (del k s d).1.2
  | CallClear => (clear s d).1
  | CallExists _ | CallSize => s
  end.
Proof.
  destruct cl as [k v|k|k|k| |]; unfold call; try done.
  - by destruct (get k s).
  - by destruct (del k s d) as [[??]?].
Qed.

Lemma inv_call C (cl : Call) s d :
  0 < C → inv C s → inv C (call cl s d).1.2.
Proof.
  intros HC (Hwf & <- & Hb). unfold inv. rewrite call_state.
  destruct cl as [k v|k|k|k| |]; [| | |done|done|].
  - split_and!; [by apply wf_put|apply put_max_capacity|].
    pose proof (bounded_put k v s d Hwf HC Hb) as Hb'. unfold bounded in Hb'.
    by rewrite put_max_capacity in Hb'.
  - split_and!; [by apply wf_get|apply get_max_capacity|].
    pose proof (bounded_get k s Hb) as Hb'. unfold bounded in Hb'.
    by rewrite get_max_capacity in Hb'.
  - split_and!; [by apply wf_del|apply del_max_capacity|].
    pose proof (bounded_del k s d Hb) as Hb'. unfold bounded in Hb'.
    by rewrite del_max_capacity in Hb'.
  - split_and!; [apply wf_clear|done|]. simpl. rewrite map_size_empty. lia.
Qed.
End invariant.

(** ** The recency order after each member function *)

Section recency.
Implicit Types (l : KeyList) (k key val : string) (s : KVStore) (d : Disk).

Lemma filter_keys key l :
  (filter (λ nd, nd.2 ≠ key) l).*2 = filter (λ k, k ≠ key) l.*2.
Proof.
  induction l as [|[it k] l IH]; [done|]. csimpl.
  rewrite !filter_cons; simpl. case_decide; csimpl; by rewrite IH.
Qed.

Lemma removelast_keys l : (removelast l).*2 = removelast l.*2.
Proof.
  induction l as [|x l IH] using rev_ind; [done|].
  rewrite fmap_app, removelast_last. csimpl. by rewrite removelast_last.
Qed.

Lemma filter_absent key (ks : list string) :
  key ∉ ks → filter (λ k, k ≠ key) ks = ks.
Proof.
  induction ks as [|k ks IH]; [done|]. intros Hnin.
  apply not_elem_of_cons in Hnin as [Hne Hnin].
  rewrite filter_cons_True by done. by rewrite IH.
Qed.

Lemma wf_lookup_keys s key :
  wf s → is_Some (cache_ s !! key) ↔ key ∈ lru_keys s.
Proof. intros Hwf. symmetry. by eapply wf_elem_of_keys. Qed.

Lemma wf_size_keys s : wf s → size (cache_ s) = length (lru_keys s).
Proof.
  intros Hwf. unfold lru_keys. rewrite length_fmap. by eapply wf_size.
Qed.

Lemma exists_elem_of s key :
  wf s → exists_ key s = bool_decide (key ∈ lru_keys s).
Proof.
  intros Hwf. unfold exists_. apply bool_decide_ext. by apply wf_lookup_keys.
Qed.

Lemma evict_lru_keys s : lru_keys (evict_lru s) = removelast (lru_keys s).
Proof.
  unfold lru_keys.
  destruct (lru_list_ s) as [|[it k] l0] eqn:Hl using rev_ind.
  { by rewrite evict_lru_nil, Hl. }
  rewrite (evict_lru_snoc _ _ _ _ Hl); simpl.
  rewrite fmap_app. csimpl. by rewrite removelast_last.
Qed.

(** [get] and [put] of a resident key move it to the front; [put] of a new
    key places it at the front, after dropping the back when the store is
    full. *)
Lemma get_lru_keys key s :
  wf s →
  lru_keys (get key s).2 =
  if decide (key ∈ lru_keys s)
  then key :: filter (λ k, k ≠ key) (lru_keys s)
  else lru_keys s.
Proof.
  intros Hwf. pose proof (wf_lookup_keys s key Hwf) as Hk. unfold get.
  destruct (cache_ s !! key) as [e|] eqn:He.
  - rewrite decide_True by (apply Hk; eauto). unfold lru_keys; simpl.
    by rewrite (wf_erase _ _ _ _ _ Hwf He), filter_keys.
  - rewrite decide_False; [done|]. rewrite <- Hk. by intros [? [=]].
Qed.

Lemma put_lru_keys key val s d :
  wf s →
  lru_keys (put key val s d).1.2 =
  if decide (key ∈ lru_keys s)
  then key :: filter (λ k, k ≠ key) (lru_keys s)
  else if decide (max_capacity_ s ≤ length (lru_keys s))
       then key :: removelast (lru_keys s)
       else key :: lru_keys s.
Proof.
  intros Hwf. pose proof (wf_lookup_keys s key Hwf) as Hk.
  unfold put; cbn [fst snd]. destruct (cache_ s !! key) as [e|] eqn:He.
  - rewrite decide_True by (apply Hk; eauto). unfold lru_keys; simpl.
    by rewrite (wf_erase _ _ _ _ _ Hwf He), filter_keys.
  - rewrite (decide_False (P := key ∈ lru_keys s))
      by (intros Hin; by apply Hk in Hin as [? [=]]).
    rewrite <- (wf_size_keys s Hwf).
    case_decide; unfold lru_keys at 1; simpl; [|done].
    f_equal. apply evict_lru_keys.
Qed.

Lemma del_lru_keys key s d :
  wf s → lru_keys (del key s d).1.2 = filter (λ k, k ≠ key) (lru_keys s).
Proof.
  intros Hwf. pose proof (wf_lookup_keys s key Hwf) as Hk. unfold del.
  destruct (cache_ s !! key) as [e|] eqn:He.
  - unfold lru_keys; simpl.
    by rewrite (wf_erase _ _ _ _ _ Hwf He), filter_keys.
  - simpl. rewrite filter_absent; [done|].
    rewrite <- Hk. by intros [? [=]].
Qed.

Lemma del_cache key s d : cache_ (del key s d).1.2 = delete key (cache_ s).
Proof.
  unfold del. destruct (cache_ s !! key) as [e|] eqn:He; [done|].
  simpl. by rewrite delete_id.
Qed.

(** [put] binds the key to the value, whatever the state. *)
Lemma put_lookup key val s d :
  value <$> cache_ (put key val s d).1.2 !! key = Some val.
Proof.
  unfold put; simpl. destruct (cache_ s !! key); simpl;
    by rewrite lookup_insert_eq.
Qed.
End recency.

(** ** Properties of the cache engine *)

Lemma KVStore_new_max_capacity C wal_path (d : Disk) :
  max_capacity_ (KVStore_new C wal_path d).1 = C.
Proof.
  unfold KVStore_new. destruct wal_path; [done|].
  destruct (ofstream_open_app _ _) as [f d']. by destruct (os_is_open f).
Qed.

Lemma KVStore_new_lru_keys C wal_path (d : Disk) :
  lru_keys (KVStore_new C wal_path d).1 = [].
Proof.
  unfold KVStore_new. destruct wal_path; [done|].
  destruct (ofstream_open_app _ _) as [f d']. by destruct (os_is_open f).
Qed.

Lemma inv_KVStore_new C wal_path (d : Disk) :
  inv C (KVStore_new C wal_path d).1.
Proof.
  split_and!.
  - apply wf_KVStore_new.
  - apply KVStore_new_max_capacity.
  - pose proof (bounded_KVStore_new C wal_path d) as Hb. unfold bounded in Hb.
    by rewrite KVStore_new_max_capacity in Hb.
Qed.

(** Every state reached from a constructed store satisfies the representation
    invariant, whatever the capacity. *)
Lemma wf_run C wal_path (d : Disk) cs :
  wf (run cs (KVStore_new C wal_path d).1 (KVStore_new C wal_path d).2).1.
Proof.
  apply (run_ind wf); [|apply wf_KVStore_new].
  intros cl s d' Hwf. rewrite call_state.
  destruct cl; auto using wf_put, wf_get, wf_del, wf_clear.
Qed.

(** C1. For a cache constructed with a positive [max_capacity], after every
    sequence of [put], [get], [del], [exists], [size] and [clear] calls the
    keys of the index are the keys of the recency list, which holds each of
    them once; the common number of keys is [size()], and it does not exceed
    [max_capacity]. *)
Theorem index_recency_capacity_invariant
    (C : nat) (wal_path : string) (d : Disk) (cs : list Call) :
  0 < C →
  let s := (run cs (KVStore_new C wal_path d).1
                   (KVStore_new C wal_path d).2).1 in
  dom (cache_ s) = list_to_set (lru_keys s) ∧
  NoDup (lru_keys s) ∧
  size (dom (cache_ s)) = size_ s ∧
  length (lru_keys s) = size_ s ∧
  size_ s ≤ C.
Proof.
  intros HC s.
  assert (inv C s) as (Hwf & Hcap & Hb).
  { apply (run_ind (inv C)); [|apply inv_KVStore_new].
    intros. by apply inv_call. }
  unfold size_. split_and!.
  - by eapply wf_dom.
  - by eapply wf_keys_nodup.
  - apply size_dom.
  - symmetry. by apply wf_size_keys.
  - done.
Qed.

Lemma index_recency_capacity_invariant_witness :
  let cs := [CallPut "a" "1"; CallPut "b" "2"; CallGet "a"; CallPut "c" "3";
             CallExists "b"; CallPut "d" "4"; CallDel "a"; CallSize;
             CallPut "d" "5"; CallClear; CallPut "e" "6"] in
  let s := (run cs (KVStore_new 3 "wal.log" ∅).1
                   (KVStore_new 3 "wal.log" ∅).2).1 in
  0 < 3 ∧
  dom (cache_ s) = list_to_set (lru_keys s) ∧
  NoDup (lru_keys s) ∧
  size (dom (cache_ s)) = size_ s ∧
  length (lru_keys s) = size_ s ∧
  size_ s ≤ 3.
Proof.
  split; [lia|].
  apply (index_recency_capacity_invariant 3 "wal.log" ∅). lia.
Defined.

(** C5. On a store satisfying the representation invariant, [del(k)] returns
    true exactly when [k] was present; it removes [k] from the index and from
    the recency order and leaves the other keys in place; afterwards
    [exists(k)] is false and a second [del(k)] returns false; and when [k]
    was absent the store and the disk are unchanged. *)
Theorem del_exists_consistency (key : string) (s : KVStore) (d : Disk) :
  wf s →
  let r := del key s d in
  r.1.1 = exists_ key s ∧
  cache_ r.1.2 = delete key (cache_ s) ∧
  lru_keys r.1.2 = filter (λ k, k ≠ key) (lru_keys s) ∧
  (key ∉ dom (cache_ r.1.2)) ∧
  (key ∉ lru_keys r.1.2) ∧
  exists_ key r.1.2 = false ∧
  (del key r.1.2 r.2).1.1 = false ∧
  (exists_ key s = false → r = (false, s, d)).
Proof.
  intros Hwf r.
  assert (cache_ r.1.2 !! key = None) as Hgone.
  { unfold r. rewrite del_cache. apply lookup_delete_eq. }
  split_and!.
  - unfold r, del, exists_. by destruct (cache_ s !! key).
  - apply del_cache.
  - by apply del_lru_keys.
  - by apply not_elem_of_dom.
  - unfold r. rewrite del_lru_keys by done.
    intros [Hne _]%list_elem_of_filter. by apply Hne.
  - unfold exists_. rewrite Hgone. apply bool_decide_eq_false. by intros [? [=]].
  - unfold del at 1. by rewrite Hgone.
  - unfold r, del, exists_. destruct (cache_ s !! key) eqn:He; [|done].
    intros Hex. apply bool_decide_eq_false in Hex. destruct Hex. eauto.
Qed.

Lemma del_exists_consistency_witness :
  let s := (run [CallPut "a" "1"; CallPut "b" "2"]
                (KVStore_new 3 "" ∅).1 (KVStore_new 3 "" ∅).2).1 in
  let r := del "a" s ∅ in
  r.1.1 = exists_ "a" s ∧
  cache_ r.1.2 = delete "a" (cache_ s) ∧
  lru_keys r.1.2 = filter (λ k, k ≠ "a") (lru_keys s) ∧
  ("a" ∉ dom (cache_ r.1.2)) ∧
  ("a" ∉ lru_keys r.1.2) ∧
  exists_ "a" r.1.2 = false ∧
  (del "a" r.1.2 r.2).1.1 = false ∧
  (exists_ "a" s = false → r = (false, s, ∅)).
Proof.
  apply (del_exists_consistency "a"). apply (wf_run 3 "" ∅).
Defined.

(** C7. [exists(k)] returns without changing the store or the disk, and so
    does [get(k)] when [k] is absent, which then returns no value. *)
Theorem exists_and_absent_get_frame (key : string) (s : KVStore) (d : Disk) :
  call (CallExists key) s d = (RetBool (exists_ key s), s, d) ∧
  (exists_ key s = false → call (CallGet key) s d = (RetValue None, s, d)).
Proof.
  split; [done|]. intros Hex. unfold call, get.
  destruct (cache_ s !! key) eqn:He; [|done].
  apply bool_decide_eq_false in Hex. destruct Hex. unfold exists_. eauto.
Qed.

Lemma exists_and_absent_get_frame_witness :
  let s := (run [CallPut "a" "1"; CallPut "b" "2"]
                (KVStore_new 3 "wal.log" ∅).1 (KVStore_new 3 "wal.log" ∅).2) in
  call (CallExists "a") s.1 s.2 = (RetBool true, s.1, s.2) ∧
  call (CallGet "zz") s.1 s.2 = (RetValue None, s.1, s.2).
Proof.
  split.
  - apply (exists_and_absent_get_frame "a").
  - apply (exists_and_absent_get_frame "zz"). reflexivity.
Defined.

(** [put] returns true and leaves the key resident, at the front of the
    recency order and bound to the value, whatever the key and the state. *)
Lemma put_then_observe (key val : string) (s : KVStore) (d : Disk) :
  let r := put key val s d in
  r.1.1 = true ∧
  key ∈ dom (cache_ r.1.2) ∧
  head (lru_keys r.1.2) = Some key ∧
  exists_ key r.1.2 = true ∧
  (get key r.1.2).1 = Some val.
Proof.
  intros r. pose proof (put_lookup key val s d) as Hv. fold r in Hv.
  destruct (cache_ r.1.2 !! key) as [e|] eqn:He; [|done].
  simpl in Hv. injection Hv as <-. split_and!.
  - done.
  - apply elem_of_dom. eauto.
  - unfold r, put; simpl. by destruct (cache_ s !! key).
  - unfold exists_. rewrite He. apply bool_decide_eq_true. eauto.
  - unfold get. by rewrite He.
Qed.

(** C10. The empty string is accepted as a key: [put("", v)] returns true
    and leaves an entry for it, after which [exists("")] is true and
    [get("")] returns [v]. *)
Theorem empty_key_accepted (v : string) (s : KVStore) (d : Disk) :
  let r := put "" v s d in
  r.1.1 = true ∧
  "" ∈ dom (cache_ r.1.2) ∧
  exists_ "" r.1.2 = true ∧
  (get "" r.1.2).1 = Some v.
Proof.
  intros r. destruct (put_then_observe "" v s d) as (? & ? & _ & ? & ?).
  by split_and!.
Qed.

Lemma run_cons (cl : Call) (cs : list Call) (s : KVStore) (d : Disk) :
  run (cl :: cs) s d = run cs (call cl s d).1.2 (call cl s d).2.
Proof. done. Qed.

(** The recency order after a call is [keys_after] of the one before. *)
Lemma call_lru_keys (cl : Call) (s : KVStore) (d : Disk) :
  wf s →
  lru_keys (call cl s d).1.2 = keys_after (max_capacity_ s) cl (lru_keys s).
Proof.
  intros Hwf. rewrite call_state. destruct cl as [k v|k|k|k| |].
  - by apply (put_lru_keys k v s d).
  - by apply (get_lru_keys k s).
  - by apply (del_lru_keys k s d).
  - done.
  - done.
  - done.
Qed.

Lemma run_lru_keys C (cs : list Call) (s : KVStore) (d : Disk) :
  inv C s → 0 < C →
  wf (run cs s d).1 ∧
  lru_keys (run cs s d).1 = foldl (λ ks cl, keys_after C cl ks) (lru_keys s) cs.
Proof.
  intros Hinv HC. revert s d Hinv.
  induction cs as [|cl cs IH]; intros s d Hinv; [by destruct Hinv|].
  rewrite run_cons. destruct (IH _ (call cl s d).2 (inv_call C cl s d HC Hinv))
    as [Hwf ->].
  split; [done|]. simpl. rewrite call_lru_keys by apply Hinv.
  by destruct Hinv as (_ & -> & _).
Qed.

(** C4. [get] of a present key returns its value and moves the key to the
    most recently used position.  Hence, with capacity 3 and four distinct
    keys, after [put(A)], [put(B)], [put(C)], [get(A)] and [put(D)] the key
    evicted is [B]: [exists(B)] is false while [A], [C] and [D] are present. *)
Theorem get_promotes_then_put_evicts
    (s : KVStore) (key : string) (e : CacheEntry)
    (A B C D vA vB vC vD wal_path : string) (d : Disk) :
  wf s → cache_ s !! key = Some e → NoDup [A; B; C; D] →
  ((get key s).1 = Some (value e) ∧
   lru_keys (get key s).2 = key :: filter (λ k, k ≠ key) (lru_keys s)) ∧
  let w0 := KVStore_new 3 wal_path d in
  let w := run [CallPut A vA; CallPut B vB; CallPut C vC; CallGet A;
                CallPut D vD] w0.1 w0.2 in
  lru_keys w.1 = [D; A; C] ∧
  exists_ B w.1 = false ∧
  exists_ A w.1 = true ∧ exists_ C w.1 = true ∧ exists_ D w.1 = true.
Proof.
  intros Hwf He Hnd. split.
  { split; [unfold get; by rewrite He|].
    rewrite get_lru_keys by done. apply decide_True.
    apply wf_lookup_keys; eauto. }
  intros w0 w.
  apply NoDup_cons in Hnd as [HA Hnd]. apply NoDup_cons in Hnd as [HB Hnd].
  apply NoDup_cons in Hnd as [HC _].
  assert (A ≠ B ∧ A ≠ C ∧ A ≠ D ∧ B ≠ C ∧ B ≠ D ∧ C ≠ D)
    as (HAB & HAC & HAD & HBC & HBD & HCD).
  { revert HA HB HC. solve_elem_of. }
  destruct (run_lru_keys 3 [CallPut A vA; CallPut B vB; CallPut C vC;
                            CallGet A; CallPut D vD] w0.1 w0.2)
    as [Hwfw Hkeys]; [apply inv_KVStore_new|lia|].
  fold w in Hwfw, Hkeys.
  unfold w0 in Hkeys. rewrite KVStore_new_lru_keys in Hkeys.
  assert (lru_keys w.1 = [D; A; C]) as Hw.
  { rewrite Hkeys. cbn [foldl keys_after]. unfold move_to_front.
    rewrite (decide_False (P := A ∈ [])) by solve_elem_of.
    rewrite (decide_False (P := 3 ≤ length [])) by (simpl; lia).
    rewrite (decide_False (P := B ∈ [A])) by solve_elem_of.
    rewrite (decide_False (P := 3 ≤ length [A])) by (simpl; lia).
    rewrite (decide_False (P := C ∈ [B; A])) by solve_elem_of.
    rewrite (decide_False (P := 3 ≤ length [B; A])) by (simpl; lia).
    rewrite (decide_True (P := A ∈ [C; B; A])) by solve_elem_of.
    rewrite filter_cons_True, filter_cons_True, filter_cons_False
      by (simpl; congruence).
    rewrite filter_nil.
    rewrite (decide_False (P := D ∈ [A; C; B])) by solve_elem_of.
    by rewrite (decide_True (P := 3 ≤ length [A; C; B])) by (simpl; lia). }
  split; [done|].
  rewrite !exists_elem_of, Hw by done.
  split_and!;
    [apply bool_decide_eq_false|apply bool_decide_eq_true..]; solve_elem_of.
Qed.

Lemma get_promotes_then_put_evicts_witness :
  let s := (run [CallPut "x" "1"; CallPut "y" "2"]
                (KVStore_new 3 "" ∅).1 (KVStore_new 3 "" ∅).2).1 in
  ((get "x" s).1 = Some "1" ∧ lru_keys (get "x" s).2 = ["x"; "y"]) ∧
  let w0 := KVStore_new 3 "wal.log" ∅ in
  let w := run [CallPut "A" "1"; CallPut "B" "2"; CallPut "C" "3";
                CallGet "A"; CallPut "D" "4"] w0.1 w0.2 in
  lru_keys w.1 = ["D"; "A"; "C"] ∧
  exists_ "B" w.1 = false ∧
  exists_ "A" w.1 = true ∧ exists_ "C" w.1 = true ∧ exists_ "D" w.1 = true.
Proof.
  apply (get_promotes_then_put_evicts
           (run [CallPut "x" "1"; CallPut "y" "2"]
                (KVStore_new 3 "" ∅).1 (KVStore_new 3 "" ∅).2).1
           "x" (mkCacheEntry "1" 0)
           "A" "B" "C" "D" "1" "2" "3" "4" "wal.log" ∅).
  - apply (wf_run 3 "" ∅).
  - reflexivity.
  - repeat (apply NoDup_cons_2; [solve_elem_of|]). apply NoDup_nil_2.
Defined.

(** ** Strings, lines and tokens *)

Section streams.
Implicit Types (s l k v r : string) (c : ascii).

Lemma string_app_cons c s1 s2 : String c s1 +:+ s2 = String c (s1 +:+ s2).
Proof. done. Qed.

Lemma string_app_nil_l s : "" +:+ s = s.
Proof. done. Qed.

Lemma string_app_nil_r s : s +:+ "" = s.
Proof.
  induction s as [|c s IH]; [done|]. by rewrite string_app_cons, IH.
Qed.

Lemma string_app_assoc s1 s2 s3 : (s1 +:+ s2) +:+ s3 = s1 +:+ (s2 +:+ s3).
Proof.
  induction s1 as [|c s1 IH]; [done|]. by rewrite !string_app_cons, IH.
Qed.

Lemma string_forall_app p s1 s2 :
  string_forall p (s1 +:+ s2) = string_forall p s1 && string_forall p s2.
Proof.
  induction s1 as [|c s1 IH]; [done|]. rewrite string_app_cons; simpl.
  by rewrite IH, andb_assoc.
Qed.

Lemma string_forall_impl (p q : ascii → bool) s :
  (∀ c, p c = true → q c = true) →
  string_forall p s = true → string_forall q s = true.
Proof.
  intros Hpq. induction s as [|c s IH]; simpl; [done|].
  intros [Hc Hs]%andb_prop. by rewrite (Hpq _ Hc), IH.
Qed.

Lemma isspace_newline : isspace newline = true.
Proof. done. Qed.

Lemma isspace_space : isspace space = true.
Proof. done. Qed.

(** A string without whitespace has no newline. *)
Lemma no_whitespace_no_newline s :
  string_forall (λ c, negb (isspace c)) s = true → no_newline s = true.
Proof.
  apply string_forall_impl. intros c Hc.
  destruct (Ascii.eqb c newline) eqn:Heq; [|done].
  apply Ascii.eqb_eq in Heq as ->. by rewrite isspace_newline in Hc.
Qed.

(** The lines of a text that starts with a complete line. *)
Lemma getlines_line l r :
  no_newline l = true → getlines (l +:+ endl +:+ r) = l :: getlines r.
Proof.
  unfold no_newline. induction l as [|c l IH].
  - intros _. unfold endl.
    by rewrite string_app_nil_l, string_app_cons, string_app_nil_l.
  - intros Hl. simpl in Hl. apply andb_prop in Hl as [Hc Hl].
    apply negb_true_iff in Hc.
    rewrite string_app_cons. cbn [getlines]. by rewrite Hc, IH.
Qed.

Lemma read_until_newline_all s :
  no_newline s = true → read_until_newline s = (s, "").
Proof.
  unfold no_newline. induction s as [|c s IH]; simpl; [done|].
  intros [Hc Hs]%andb_prop. apply negb_true_iff in Hc.
  by rewrite Hc, IH.
Qed.

Lemma getline_rest_all s : no_newline s = true → getline_rest s = s.
Proof. intros Hs. unfold getline_rest. by rewrite read_until_newline_all. Qed.

Lemma read_word_all k :
  string_forall (λ c, negb (isspace c)) k = true → read_word k = (k, "").
Proof.
  induction k as [|c k IH]; simpl; [done|].
  intros [Hc Hk]%andb_prop. apply negb_true_iff in Hc.
  by rewrite Hc, IH.
Qed.

Lemma read_word_stop k c r :
  string_forall (λ c, negb (isspace c)) k = true → isspace c = true →
  read_word (k +:+ String c r) = (k, String c r).
Proof.
  intros Hk Hc. induction k as [|c' k IH].
  - rewrite string_app_nil_l; simpl. by rewrite Hc.
  - simpl in Hk. apply andb_prop in Hk as [Hc' Hk].
    apply negb_true_iff in Hc'. rewrite string_app_cons; simpl.
    by rewrite Hc', IH.
Qed.

Lemma skipws_key k r :
  key_no_whitespace k = true → skipws (k +:+ r) = k +:+ r.
Proof.
  unfold key_no_whitespace. destruct k as [|c k]; simpl; [done|].
  intros [Hc _]%andb_prop. apply negb_true_iff in Hc.
  rewrite string_app_cons. cbn [skipws]. by rewrite Hc.
Qed.

(** [iss >> key] reads back a key written after a single space, when what
    follows the key is nothing or starts with whitespace. *)
Lemma extract_key k r :
  key_no_whitespace k = true →
  match r with
  | EmptyString => True
  | String c _ => isspace c = true
  end →
  extract (String space (k +:+ r)) = Some (k, r).
Proof.
  intros Hk Hr. unfold extract. cbn [skipws].
  rewrite isspace_space, skipws_key by done.
  pose proof Hk as [Hne Hws]%andb_prop.
  destruct r as [|c r'].
  - rewrite string_app_nil_r, read_word_all by done. by destruct k.
  - rewrite read_word_stop by done. by destruct k.
Qed.
End streams.

(** ** Replay *)

Section replay.
Implicit Types (k v key val line : string) (s : KVStore) (d : Disk).
Implicit Types (cl : Call) (w : option ofstream).

(** The replay loop issues the call [decode_line] gives, or none. *)
Lemma replay_line_decode line s d :
  replay_line line s d =
  match decode_line line with
  | Some cl => ((call cl s d).1.2, (call cl s d).2)
  | None => (s, d)
  end.
Proof.
  unfold replay_line, decode_line.
  destruct (extract line) as [[op r1]|]; [|done].
  repeat case_decide; try done.
  - destruct (extract r1) as [[key r2]|]; reflexivity.
  - destruct (extract r1) as [[key r2]|]; [|done]. simpl.
    by destruct (del key s d) as [[??]?].
Qed.

Lemma replay_cons line (ls : list string) s d :
  replay (line :: ls) s d =
  replay ls (replay_line line s d).1 (replay_line line s d).2.
Proof. unfold replay; simpl. by destruct (replay_line line s d). Qed.

Lemma replay_app (ls1 ls2 : list string) s d :
  replay (ls1 ++ ls2) s d = replay ls2 (replay ls1 s d).1 (replay ls1 s d).2.
Proof.
  unfold replay. rewrite foldl_app.
  by destruct (foldl _ (s, d) ls1).
Qed.

(** *** While [wal_file_] is moved away *)

Lemma evict_lru_set_wal_file w s :
  evict_lru (set_wal_file w s) = set_wal_file w (evict_lru s).
Proof. unfold evict_lru; simpl. by destruct (list_back _). Qed.

Lemma put_set_wal_file w key val s d d' :
  (put key val (set_wal_file w s) d).1.2 = set_wal_file w (put key val s d').1.2.
Proof.
  unfold put; simpl. destruct (cache_ s !! key); [done|].
  case_decide; [|done]. by rewrite evict_lru_set_wal_file.
Qed.

Lemma del_set_wal_file w key s d d' :
  (del key (set_wal_file w s) d).1.2 = set_wal_file w (del key s d').1.2.
Proof. unfold del; simpl. by destruct (cache_ s !! key). Qed.

Lemma get_set_wal_file w key s :
  (get key (set_wal_file w s)).2 = set_wal_file w (get key s).2.
Proof. unfold get; simpl. by destruct (cache_ s !! key). Qed.

Lemma call_set_wal_file w cl s d d' :
  (call cl (set_wal_file w s) d).1.2 = set_wal_file w (call cl s d').1.2.
Proof.
  rewrite !call_state. destruct cl as [k v|k|k|k| |]; try done.
  - apply put_set_wal_file.
  - apply get_set_wal_file.
  - apply del_set_wal_file.
Qed.

Lemma call_wal_file cl s d : wal_file_ (call cl s d).1.2 = wal_file_ s.
Proof.
  rewrite call_state. destruct cl as [k v|k|k|k| |]; try done.
  - unfold put; simpl. destruct (cache_ s !! k); [done|].
    case_decide; [|done]. simpl. apply evict_lru_params.
  - unfold get. by destruct (cache_ s !! k).
  - unfold del. by destruct (cache_ s !! k).
Qed.

Lemma call_wal_path cl s d : wal_path_ (call cl s d).1.2 = wal_path_ s.
Proof.
  rewrite call_state. destruct cl as [k v|k|k|k| |]; try done.
  - unfold put; simpl. destruct (cache_ s !! k); [done|].
    case_decide; [|done]. simpl. apply evict_lru_params.
  - unfold get. by destruct (cache_ s !! k).
  - unfold del. by destruct (cache_ s !! k).
Qed.

(** Without an open stream no call touches the disk. *)
Lemma call_disk_no_wal cl s d :
  wal_file_ s = None → (call cl s d).2 = d.
Proof.
  intros Hw. destruct cl as [k v|k|k|k| |]; unfold call; try done.
  - pose proof (call_wal_file (CallPut k v) s d) as Hw'.
    rewrite call_state, Hw in Hw'. unfold put in *; simpl in *.
    unfold write_wal. by rewrite Hw'.
  - by destruct (get k s).
  - unfold del. destruct (cache_ s !! k); [|done]. simpl.
    unfold write_wal; simpl. by rewrite Hw.
  - simpl. unfold write_wal; simpl. by rewrite Hw.
Qed.

(** The store a call leaves does not depend on the disk. *)
Lemma call_state_disk cl s d d' : (call cl s d).1.2 = (call cl s d').1.2.
Proof.
  rewrite !call_state. destruct cl as [k v|k|k|k| |]; try done.
  unfold del. by destruct (cache_ s !! k).
Qed.

Lemma run_state_disk (cs : list Call) s d d' :
  (run cs s d).1 = (run cs s d').1.
Proof.
  revert s d d'. induction cs as [|cl cs IH]; intros s d d'; [done|].
  rewrite !run_cons, (call_state_disk cl s d d'). apply IH.
Qed.

(** Replaying lines on a store whose stream is moved away issues the
    decoded calls, in order, and leaves the disk alone. *)
Lemma replay_no_wal (ls : list string) s d d' :
  replay ls (set_wal_file None s) d =
  (set_wal_file None (run (omap decode_line ls) s d').1, d).
Proof.
  revert s d'. induction ls as [|line ls IH]; intros s d'; [done|].
  rewrite replay_cons, replay_line_decode. simpl omap.
  destruct (decode_line line) as [cl|]; simpl fst; simpl snd; [|apply IH].
  rewrite run_cons, call_disk_no_wal by done.
  rewrite (call_set_wal_file None cl s d d'). apply IH.
Qed.

Lemma set_wal_file_restore s :
  set_wal_file (wal_file_ s) (set_wal_file None s) = s.
Proof. by destruct s. Qed.

Lemma run_wal_file (cs : list Call) s d :
  wal_file_ (run cs s d).1 = wal_file_ s.
Proof.
  apply (run_ind (λ s', wal_file_ s' = wal_file_ s)); [|done].
  intros cl s' d' <-. apply call_wal_file.
Qed.

Lemma run_wal_path (cs : list Call) s d :
  wal_path_ (run cs s d).1 = wal_path_ s.
Proof.
  apply (run_ind (λ s', wal_path_ s' = wal_path_ s)); [|done].
  intros cl s' d' <-. apply call_wal_path.
Qed.

(** [recover] on a readable log: the decoded calls are issued on the store
    as it is, and nothing is written. *)
Lemma recover_readable s d content :
  wal_path_ s ≠ "" → ifstream_open (wal_path_ s) d = Some content →
  recover s d =
  (true, (run (omap decode_line (getlines content)) s d).1, d).
Proof.
  intros Hp Hopen. unfold recover. rewrite Hopen.
  destruct (wal_path_ s) eqn:Hpath; [done|].
  rewrite (replay_no_wal _ s d d).
  rewrite <- (run_wal_file (omap decode_line (getlines content)) s d).
  by rewrite set_wal_file_restore.
Qed.

Lemma wf_recover s d : wf s → wf (recover s d).1.2.
Proof.
  intros Hwf. unfold recover. destruct (wal_path_ s) eqn:Hp; [done|].
  destruct (ifstream_open _ d) as [content|]; [|done].
  rewrite (replay_no_wal _ s d d). simpl.
  apply (run_ind wf); [|done].
  intros cl s' d' Hwf'. rewrite call_state.
  destruct cl; auto using wf_put, wf_get, wf_del, wf_clear.
Qed.

Lemma decode_line_mutating line cl :
  decode_line line = Some cl → mutating cl = true.
Proof.
  unfold decode_line. destruct (extract line) as [[op r1]|]; [|done].
  repeat case_decide; try done.
  - destruct (extract r1) as [[key r2]|]; by intros [= <-].
  - destruct (extract r1) as [[key r2]|]; by intros [= <-].
  - by intros [= <-].
Qed.
End replay.

(** ** Properties of recovery *)

(** C9. [recover()] does not empty the cache first: on a readable log it
    returns true and leaves the store obtained by issuing, on the store as
    it was before the call and in the order of the log, the [put], [del] and
    [clear] calls that the lines of the log decode to; the disk is not
    written. *)
Theorem recover_replays_on_current_state
    (s : KVStore) (d : Disk) (content : string) :
  wal_path_ s ≠ "" → ifstream_open (wal_path_ s) d = Some content →
  let calls := omap decode_line (getlines content) in
  forallb mutating calls = true ∧
  recover s d = (true, (run calls s d).1, d).
Proof.
  intros Hp Hopen calls. split; [|by apply recover_readable].
  apply forallb_forall. intros cl Hcl%list_elem_of_In.
  apply list_elem_of_omap in Hcl as (line & _ & Hline).
  by eapply decode_line_mutating.
Qed.

Lemma recover_replays_on_current_state_witness :
  let d : Disk := {[ "wal.log" := mkFile (unlines ["PUT a 2"]) true false ]} in
  let s := (run [CallPut "x" "1"] (KVStore_new 3 "wal.log" d).1 d).1 in
  (forallb mutating [CallPut "a" "2"] = true ∧
   recover s d = (true, (run [CallPut "a" "2"] s d).1, d)) ∧
  lru_keys (recover s d).1.2 = ["a"; "x"] ∧
  lru_keys (recover (KVStore_new 3 "wal.log" d).1 d).1.2 = ["a"].
Proof.
  intros d s. split; [|by split].
  apply (recover_replays_on_current_state s d (unlines ["PUT a 2"])); done.
Defined.

(** ** The write-ahead log *)

Section wal.
Implicit Types (k v key val line p : string) (s : KVStore) (d : Disk).
Implicit Types (cl : Call) (f : File).

(** The file behind the open stream after [write_wal]. *)
Lemma write_wal_lookup operation key val s d p f :
  wal_file_ s = Some (mkOfstream p true) → d !! p = Some f →
  write_wal operation key val s d !! p =
  Some (mkFile (f_data f +:+ wal_record operation key val)
               (f_readable f) (f_writable f)).
Proof.
  intros Hw Hf. unfold write_wal, ofstream_write. rewrite Hw; simpl.
  by rewrite lookup_alter_eq, Hf.
Qed.

Lemma call_log cl s d p f :
  wal_file_ s = Some (mkOfstream p true) → d !! p = Some f →
  (call cl s d).2 !! p =
  Some (mkFile (f_data f +:+ appended cl s) (f_readable f) (f_writable f)).
Proof.
  intros Hw Hf.
  assert (Some f = Some (mkFile (f_data f +:+ "") (f_readable f)
                                (f_writable f))) as Hsame.
  { rewrite string_app_nil_r. by destruct f. }
  destruct cl as [k v|k|k|k| |]; unfold appended; simpl.
  - pose proof (call_wal_file (CallPut k v) s d) as Hw'.
    rewrite call_state, Hw in Hw'.
    rewrite (write_wal_lookup _ _ _ _ _ p f) by done.
    unfold wal_record. by rewrite !string_app_assoc.
  - destruct (get k s). simpl. by rewrite Hf.
  - unfold del. destruct (cache_ s !! k) eqn:Hk; simpl; [|by rewrite Hf].
    rewrite (write_wal_lookup _ _ _ _ _ p f) by done.
    unfold wal_record. by rewrite !string_app_assoc.
  - by rewrite Hf.
  - by rewrite Hf.
  - by rewrite (write_wal_lookup _ _ _ _ _ p f).
Qed.

(** *** Reading back what was written *)

Lemma decode_put_line k v :
  key_no_whitespace k = true → no_newline v = true →
  decode_line ("PUT" +:+ " " +:+ k +:+
               match v with EmptyString => EmptyString | _ => " " +:+ v end)
  = Some (CallPut k v).
Proof.
  intros Hk Hv. unfold decode_line.
  change (extract ("PUT" +:+ " " +:+ ?r)) with (Some ("PUT", String space r)).
  cbv beta iota. rewrite decide_True by done.
  destruct v as [|c v'].
  - rewrite extract_key by done. done.
  - rewrite extract_key by done.
    change (" " +:+ String c v') with (String space (String c v')).
    rewrite getline_rest_all; [done|].
    unfold no_newline in *. simpl in *. by rewrite Hv.
Qed.

Lemma decode_del_line k :
  key_no_whitespace k = true →
  decode_line ("DEL" +:+ " " +:+ k) = Some (CallDel k).
Proof.
  intros Hk. unfold decode_line.
  change (extract ("DEL" +:+ " " +:+ ?r)) with (Some ("DEL", String space r)).
  cbv beta iota. rewrite decide_False, decide_True by done.
  rewrite <- (string_app_nil_r k) at 1. by rewrite extract_key.
Qed.

Lemma decode_clear_line : decode_line ("CLEAR" +:+ " ") = Some CallClear.
Proof. done. Qed.

(** A logged line of a round-trip call has no newline and decodes to the
    call. *)
Lemma logged_line_decode cl s line :
  roundtrip_call key_no_whitespace cl = true →
  logged_line cl s = Some line →
  no_newline line = true ∧ decode_line line = Some cl.
Proof.
  destruct cl as [k v|k|k|k| |]; simpl; try done.
  - intros [Hk Hv]%andb_prop [= <-]. split; [|by apply decode_put_line].
    pose proof Hk as [_ Hws%no_whitespace_no_newline]%andb_prop.
    unfold no_newline in *. rewrite !string_forall_app, Hws. simpl.
    destruct v; [done|]. by rewrite string_forall_app, Hv.
  - intros Hk. destruct (cache_ s !! k); [|done]. intros [= <-].
    split; [|by apply decode_del_line].
    pose proof Hk as [_ Hws%no_whitespace_no_newline]%andb_prop.
    unfold no_newline in *. by rewrite !string_forall_app, Hws.
  - by intros _ [= <-].
Qed.

(** A round-trip call that is not logged leaves the store as it is. *)
Lemma not_logged_state cl s d :
  roundtrip_call key_no_whitespace cl = true →
  logged_line cl s = None → (call cl s d).1.2 = s.
Proof.
  destruct cl as [k v|k|k|k| |]; simpl; try done.
  intros _. unfold del. by destruct (cache_ s !! k).
Qed.

(** The log a sequence of round-trip calls leaves decodes to calls that
    lead to the same store. *)
Lemma run_log p (cs : list Call) s d f :
  wal_file_ s = Some (mkOfstream p true) → d !! p = Some f →
  forallb (roundtrip_call key_no_whitespace) cs = true →
  ∃ text,
    (run cs s d).2 !! p =
      Some (mkFile (f_data f +:+ text) (f_readable f) (f_writable f)) ∧
    ∀ d', (run (omap decode_line (getlines text)) s d').1 = (run cs s d).1.
Proof.
  revert s d f. induction cs as [|cl cs IH]; intros s d f Hw Hf Hcs.
  { exists "". rewrite string_app_nil_r. split; [by destruct f|done]. }
  simpl in Hcs. apply andb_prop in Hcs as [Hcl Hcs].
  rewrite run_cons.
  pose proof (call_log cl s d p f Hw Hf) as Hf1.
  destruct (IH (call cl s d).1.2 (call cl s d).2 _
               (eq_trans (call_wal_file cl s d) Hw) Hf1 Hcs)
    as (text & Hlog & Hrun).
  simpl in Hlog. exists (appended cl s +:+ text).
  split; [by rewrite <- string_app_assoc|].
  intros d'. rewrite <- Hrun with (d' := (call cl s d').2).
  unfold appended.
  destruct (logged_line cl s) as [line|] eqn:Hline.
  - destruct (logged_line_decode cl s line Hcl Hline) as [Hnl Hdec].
    rewrite string_app_assoc, getlines_line by done.
    simpl. rewrite Hdec, run_cons.
    by rewrite (call_state_disk cl s d d').
  - rewrite string_app_nil_l, (not_logged_state cl s d Hcl Hline).
    apply run_state_disk.
Qed.
End wal.

(** ** The recovery round trip *)

Lemma KVStore_new_log C (p : string) (d : Disk) :
  p ≠ "" → log_fresh p d →
  ∃ d0, KVStore_new C p d =
          (mkKVStore ∅ [] 0 C p (Some (mkOfstream p true)), d0) ∧
        d0 !! p = Some (mkFile "" true true).
Proof.
  intros Hp [Hnone|Hempty]; unfold KVStore_new, ofstream_open_app;
    (destruct p; [done|]).
  - rewrite Hnone; simpl. eexists. split; [done|]. apply lookup_insert_eq.
  - rewrite Hempty; simpl. by eexists.
Qed.

Lemma KVStore_new_reopen C (p : string) (d : Disk) (f : File) :
  p ≠ "" → d !! p = Some f → f_writable f = true →
  KVStore_new C p d = (mkKVStore ∅ [] 0 C p (Some (mkOfstream p true)), d).
Proof.
  intros Hp Hf Hw. unfold KVStore_new, ofstream_open_app.
  destruct p; [done|]. rewrite Hf; simpl. by rewrite Hw.
Qed.




(** ** The layout of log records *)

Lemma getlines_single (line : string) :
  no_newline line = true → getlines (line +:+ endl) = [line].
Proof.
  intros Hl. rewrite <- (string_app_nil_r (line +:+ endl)).
  by rewrite string_app_assoc, getlines_line.
Qed.

(** C3, as amended.  With the stream open, [put] appends the operation, a
    space and the key, then a space and the value unless the value is empty;
    a [del] that removes a key appends the operation, a space and the key;
    [clear] appends the operation followed by one space, the separator that
    precedes its empty key.  Each record ends with a newline, and is one line
    when the key and the value hold no newline. *)
Theorem wal_record_layout
    (s : KVStore) (d : Disk) (p : string) (f : File) (k v : string) :
  wal_file_ s = Some (mkOfstream p true) → d !! p = Some f →
  let put_line :=
    "PUT" +:+ " " +:+ k +:+
    match v with EmptyString => EmptyString | _ => " " +:+ v end in
  let del_line := "DEL" +:+ " " +:+ k in
  let clear_line := "CLEAR" +:+ " " in
  file_data p (put k v s d).2 = Some (f_data f +:+ put_line +:+ endl) ∧
  (exists_ k s = true →
   file_data p (del k s d).2 = Some (f_data f +:+ del_line +:+ endl)) ∧
  file_data p (clear s d).2 = Some (f_data f +:+ clear_line +:+ endl) ∧
  (no_newline k = true → no_newline v = true →
   getlines (put_line +:+ endl) = [put_line] ∧
   getlines (del_line +:+ endl) = [del_line]) ∧
  getlines (clear_line +:+ endl) = [clear_line].
Proof.
  intros Hw Hf put_line del_line clear_line. unfold file_data. split_and!.
  - pose proof (call_log (CallPut k v) s d p f Hw Hf) as Hlog.
    change (call (CallPut k v) s d).2 with (put k v s d).2 in Hlog.
    by rewrite Hlog.
  - intros Hex. pose proof (call_log (CallDel k) s d p f Hw Hf) as Hlog.
    unfold appended, logged_line in Hlog.
    apply bool_decide_eq_true in Hex as [e He]. rewrite He in Hlog.
    replace (call (CallDel k) s d).2 with (del k s d).2 in Hlog
      by (unfold call; by destruct (del k s d) as [[??]?]).
    by rewrite Hlog.
  - pose proof (call_log CallClear s d p f Hw Hf) as Hlog.
    change (call CallClear s d).2 with (clear s d).2 in Hlog.
    by rewrite Hlog.
  - intros Hk Hv. unfold no_newline in *.
    split; apply getlines_single; unfold no_newline, put_line, del_line;
      rewrite !string_forall_app, Hk; [|done].
    destruct v; [done|]. by rewrite string_forall_app, Hv.
  - done.
Qed.

Lemma wal_record_layout_witness :
  let w := run [CallPut "city" "New York"] (KVStore_new 5 "demo_wal.log" ∅).1
               (KVStore_new 5 "demo_wal.log" ∅).2 in
  let old := "PUT city New York" +:+ endl in
  file_data "demo_wal.log" (put "age" "" w.1 w.2).2
    = Some (old +:+ "PUT age" +:+ endl) ∧
  file_data "demo_wal.log" (put "city" "Paris" w.1 w.2).2
    = Some (old +:+ "PUT city Paris" +:+ endl) ∧
  file_data "demo_wal.log" (del "city" w.1 w.2).2
    = Some (old +:+ "DEL city" +:+ endl) ∧
  file_data "demo_wal.log" (clear w.1 w.2).2
    = Some (old +:+ "CLEAR " +:+ endl) ∧
  getlines ("PUT city Paris" +:+ endl) = ["PUT city Paris"].
Proof.
  intros w old.
  destruct (wal_record_layout w.1 w.2 "demo_wal.log" (mkFile old true true)
              "age" "" eq_refl eq_refl) as (Hput0 & _).
  destruct (wal_record_layout w.1 w.2 "demo_wal.log" (mkFile old true true)
              "city" "Paris" eq_refl eq_refl)
    as (Hput & Hdel & Hclear & Hlines & _).
  split_and!.
  - exact Hput0.
  - exact Hput.
  - apply Hdel. reflexivity.
  - exact Hclear.
  - apply Hlines; reflexivity.
Defined.

(** C3 as the specification states it fails for [clear]: the record written
    is the operation name followed by a space, not the name alone. *)
Lemma clear_record_counterexample :
  let w0 := KVStore_new 3 "wal.log" ∅ in
  let w1 := clear w0.1 w0.2 in
  file_data "wal.log" w1.2 = Some ("CLEAR " +:+ endl) ∧
  getlines ("CLEAR " +:+ endl) = ["CLEAR "] ∧
  spec_record_line CallClear = Some "CLEAR" ∧
  logged_line CallClear w0.1 ≠ spec_record_line CallClear.
Proof. by split_and!. Qed.

(** ** The assertions of the test suite

    The scenarios of the repository's tests, run on the embedding. *)

Example test_basic_operations :
  trace [CallPut "key1" "value1"; CallGet "key1"; CallPut "key1" "value2";
         CallGet "key1"; CallGet "nonexistent"]
        (KVStore_new 100 "" ∅).1 (KVStore_new 100 "" ∅).2 =
  [RetBool true; RetValue (Some "value1"); RetBool true;
   RetValue (Some "value2"); RetValue None].
Proof. reflexivity. Qed.

Example test_delete :
  trace [CallPut "key1" "value1"; CallExists "key1"; CallSize; CallDel "key1";
         CallExists "key1"; CallSize; CallDel "nonexistent"]
        (KVStore_new 100 "" ∅).1 (KVStore_new 100 "" ∅).2 =
  [RetBool true; RetBool true; RetSize 1; RetBool true;
   RetBool false; RetSize 0; RetBool false].
Proof. reflexivity. Qed.

Example test_lru_eviction :
  trace [CallPut "key1" "value1"; CallPut "key2" "value2";
         CallPut "key3" "value3"; CallSize;
         CallPut "key4" "value4"; CallSize;
         CallExists "key1"; CallExists "key2"; CallExists "key3";
         CallExists "key4";
         CallGet "key2";
         CallPut "key5" "value5"; CallSize;
         CallExists "key3"; CallExists "key2"; CallExists "key4";
         CallExists "key5"]
        (KVStore_new 3 "" ∅).1 (KVStore_new 3 "" ∅).2 =
  [RetBool true; RetBool true; RetBool true; RetSize 3;
   RetBool true; RetSize 3;
   RetBool false; RetBool true; RetBool true; RetBool true;
   RetValue (Some "value2");
   RetBool true; RetSize 3;
   RetBool false; RetBool true; RetBool true; RetBool true].
Proof. reflexivity. Qed.

Example test_clear :
  trace [CallPut "key1" "value1"; CallPut "key2" "value2";
         CallPut "key3" "value3"; CallSize; CallClear; CallSize;
         CallExists "key1"; CallExists "key2"; CallExists "key3"]
        (KVStore_new 100 "" ∅).1 (KVStore_new 100 "" ∅).2 =
  [RetBool true; RetBool true; RetBool true; RetSize 3; RetVoid; RetSize 0;
   RetBool false; RetBool false; RetBool false].
Proof. reflexivity. Qed.

Example test_wal_recovery :
  let w0 := KVStore_new 100 "test_wal.log" ∅ in
  let w1 := run [CallPut "key1" "value1"; CallPut "key2" "value2";
                 CallPut "key3" "value3"] w0.1 w0.2 in
  let w2 := KVStore_new 100 "test_wal.log" w1.2 in
  let r := recover w2.1 w2.2 in
  file_data "test_wal.log" w1.2 =
    Some (unlines ["PUT key1 value1"; "PUT key2 value2"; "PUT key3 value3"]) ∧
  r.1.1 = true ∧
  trace [CallExists "key1"; CallExists "key2"; CallExists "key3";
         CallGet "key1"] r.1.2 r.2 =
  [RetBool true; RetBool true; RetBool true; RetValue (Some "value1")].
Proof. by split_and!. Qed.

(** ** The store against the association list *)

Section model.
Implicit Types (c : gmap string CacheEntry) (l : KeyList) (n : nat).
Implicit Types (k key val : string) (s : KVStore) (d : Disk).
Implicit Types (m : list (string * string)).

Lemma omap_ext_elem_of {A B} (f g : A → option B) (xs : list A) :
  (∀ x, x ∈ xs → f x = g x) → omap f xs = omap g xs.
Proof.
  induction xs as [|x xs IH]; intros Hfg; [done|]. csimpl.
  rewrite (Hfg x) by left. rewrite IH; [done|].
  intros y Hy. apply Hfg. by right.
Qed.

Lemma entries_filter c l k :
  omap (entry_of c) (filter (λ nd, nd.2 ≠ k) l) =
  drop_key k (omap (entry_of c) l).
Proof.
  unfold drop_key. induction l as [|[it k'] l IH]; [done|].
  rewrite filter_cons. csimpl. unfold entry_of at 2; simpl.
  destruct (decide (k' ≠ k)) as [Hne|Heq].
  - csimpl. unfold entry_of at 1; simpl.
    destruct (c !! k') as [e|]; simpl; [|done].
    rewrite filter_cons_True by done. by rewrite IH.
  - destruct (c !! k') as [e|]; simpl; [|done].
    rewrite filter_cons_False by done. done.
Qed.

Lemma entries_all_Some c l n nd :
  wf_parts c l n → nd ∈ l → ∃ e, c !! nd.2 = Some e ∧ lru_iter e = nd.1.
Proof. intros Hwf Hin. destruct nd as [it k]. by eapply wf_list. Qed.

Lemma omap_entries_keys c l :
  (∀ nd, nd ∈ l → is_Some (c !! nd.2)) → (omap (entry_of c) l).*1 = l.*2.
Proof.
  induction l as [|nd l IH]; intros Hall; [done|]. csimpl.
  destruct (Hall nd) as [e He]; [left|]. unfold entry_of at 1. rewrite He.
  csimpl. rewrite IH; [done|]. intros nd' Hin. apply Hall. by right.
Qed.

Lemma omap_entries_snoc c l nd e :
  c !! nd.2 = Some e →
  omap (entry_of c) (l ++ [nd]) = omap (entry_of c) l ++ [(nd.2, value e)].
Proof.
  intros He. rewrite omap_app. f_equal. csimpl. unfold entry_of.
  by rewrite He.
Qed.

Lemma entries_keys s : wf s → (entries s).*1 = lru_keys s.
Proof.
  intros Hwf. apply omap_entries_keys. intros nd Hin.
  destruct (entries_all_Some _ _ _ nd Hwf Hin) as (e & -> & _). eauto.
Qed.

Lemma entries_length s : wf s → length (entries s) = size (cache_ s).
Proof.
  intros Hwf. rewrite <- (length_fmap fst), entries_keys by done.
  symmetry. by apply wf_size_keys.
Qed.

Lemma assoc_None k m : k ∉ m.*1 → assoc k m = None.
Proof.
  induction m as [|e m IH]; [done|]. csimpl.
  intros [Hne Hnin]%not_elem_of_cons. rewrite decide_False by done. auto.
Qed.

Lemma assoc_Some k v m : NoDup m.*1 → (k, v) ∈ m → assoc k m = Some v.
Proof.
  induction m as [|e m IH]; csimpl; intros Hnd Hin.
  { by apply elem_of_nil in Hin. }
  apply NoDup_cons in Hnd as [Hnin Hnd].
  apply elem_of_cons in Hin as [<-|Hin]; simpl.
  - by rewrite decide_True.
  - rewrite decide_False; [auto|]. intros Heq. apply Hnin.
    apply list_elem_of_fmap. exists (k, v). by rewrite Heq.
Qed.

(** Looking a key up in the entries is looking it up in the index. *)
Lemma assoc_entries s k : wf s → assoc k (entries s) = value <$> cache_ s !! k.
Proof.
  intros Hwf. destruct (cache_ s !! k) as [e|] eqn:He; simpl.
  - apply assoc_Some.
    + rewrite entries_keys by done. by eapply wf_keys_nodup.
    + apply list_elem_of_omap. exists (lru_iter e, k).
      split; [by eapply wf_index|]. unfold entry_of; simpl. by rewrite He.
  - apply assoc_None. rewrite entries_keys by done.
    rewrite <- wf_lookup_keys, He by done. by intros [? [=]].
Qed.

(** The entries after linking a node for [key] at the front of a list that
    holds no node for it. *)
Lemma entries_link_front key val c l s :
  (∀ nd, nd ∈ l → nd.2 ≠ key) →
  entries (link_front key val c l s) = (key, val) :: omap (entry_of c) l.
Proof.
  intros Hl. unfold entries, link_front; simpl. csimpl.
  unfold entry_of at 1; simpl. rewrite lookup_insert_eq; simpl. f_equal.
  apply omap_ext_elem_of. intros nd Hin. unfold entry_of.
  by rewrite lookup_insert_ne by (symmetry; by apply Hl).
Qed.

Lemma entries_touch key val e s :
  wf s → cache_ s !! key = Some e →
  entries (link_front key val (cache_ s)
             (list_erase (lru_iter e) (lru_list_ s)) s) =
  (key, val) :: drop_key key (entries s).
Proof.
  intros Hwf He. rewrite (wf_erase _ _ _ _ _ Hwf He).
  rewrite entries_link_front.
  - by rewrite entries_filter.
  - by intros nd [Hne _]%list_elem_of_filter.
Qed.

Lemma wf_absent_nodes s key nd :
  wf s → cache_ s !! key = None → nd ∈ lru_list_ s → nd.2 ≠ key.
Proof.
  intros Hwf Hnone Hin <-.
  destruct (entries_all_Some _ _ _ nd Hwf Hin) as (e & He & _). congruence.
Qed.

Lemma entries_evict_lru s :
  wf s → entries (evict_lru s) = removelast (entries s).
Proof.
  intros Hwf. unfold entries.
  destruct (lru_list_ s) as [|[it k] l0] eqn:Hl using rev_ind.
  { by rewrite evict_lru_nil, Hl. }
  clear IHl0. rewrite (evict_lru_snoc _ _ _ _ Hl); simpl.
  unfold wf in Hwf. rewrite Hl in Hwf.
  destruct (wf_list _ _ _ Hwf it k) as (e & He & _).
  { apply elem_of_app. right. left. }
  rewrite (omap_entries_snoc _ _ (it, k) e He), removelast_last.
  apply omap_ext_elem_of. intros [it' k'] Hin. unfold entry_of; simpl.
  rewrite lookup_delete_ne; [done|]. intros <-.
  pose proof (wf_keys_nodup _ _ _ Hwf) as Hnd.
  rewrite fmap_app in Hnd. apply NoDup_app in Hnd as (_ & Hdisj & _).
  apply (Hdisj k).
  - apply list_elem_of_fmap. by exists (it', k).
  - csimpl. left.
Qed.

(** Each call does to the entries what [model_call] does to the list, and
    returns what it returns. *)
Lemma call_model (cl : Call) s d :
  wf s →
  (call cl s d).1.1 = (model_call (max_capacity_ s) cl (entries s)).1 ∧
  entries (call cl s d).1.2 = (model_call (max_capacity_ s) cl (entries s)).2.
Proof.
  intros Hwf. pose proof (assoc_entries s) as Hassoc.
  destruct cl as [k v|k|k|k| |]; unfold model_call; rewrite ?Hassoc by done.
  - split; [done|]. rewrite call_state. unfold put; cbn [fst snd].
    destruct (cache_ s !! k) as [e|] eqn:He; simpl.
    + by apply entries_touch.
    + rewrite entries_length by done. case_decide.
      * rewrite entries_link_front.
        -- f_equal. by apply entries_evict_lru.
        -- intros nd Hin. eapply wf_absent_nodes; [by apply wf_evict_lru| |done].
           by apply evict_lru_lookup_None.
      * rewrite entries_link_front; [done|].
        intros nd Hin. by eapply wf_absent_nodes.
  - unfold call, get. destruct (cache_ s !! k) as [e|] eqn:He; simpl; [|done].
    split; [done|]. by apply entries_touch.
  - unfold call, del. destruct (cache_ s !! k) as [e|] eqn:He; simpl; [|done].
    split; [done|]. unfold entries; simpl.
    rewrite (wf_erase _ _ _ _ _ Hwf He), <- entries_filter.
    apply omap_ext_elem_of. intros nd [Hne _]%list_elem_of_filter.
    unfold entry_of. by rewrite lookup_delete_ne.
  - split; [|done]. simpl. f_equal. unfold exists_. apply bool_decide_ext.
    by rewrite fmap_is_Some.
  - split; [|done]. simpl. f_equal. symmetry. by apply entries_length.
  - done.
Qed.
End model.

Section model_sequences.
Implicit Types (k key val : string) (s : KVStore) (d : Disk).
Implicit Types (m : list (string * string)) (cs : list Call).

Lemma wf_call (cl : Call) s d : wf s → wf (call cl s d).1.2.
Proof.
  intros Hwf. rewrite call_state.
  destruct cl; auto using wf_put, wf_get, wf_del, wf_clear.
Qed.

Lemma call_max_capacity (cl : Call) s d :
  max_capacity_ (call cl s d).1.2 = max_capacity_ s.
Proof.
  rewrite call_state.
  destruct cl; auto using put_max_capacity, get_max_capacity,
    del_max_capacity.
Qed.

Lemma run_model cs s d :
  wf s →
  trace cs s d = model_trace (max_capacity_ s) cs (entries s) ∧
  entries (run cs s d).1 = model_run (max_capacity_ s) cs (entries s).
Proof.
  revert s d. induction cs as [|cl cs IH]; intros s d Hwf; [done|].
  destruct (call_model cl s d Hwf) as [Hret Hent].
  destruct (IH _ (call cl s d).2 (wf_call cl s d Hwf)) as [IHt IHr].
  rewrite call_max_capacity, Hent in IHt, IHr.
  rewrite run_cons. cbn [trace model_trace]. unfold model_run. cbn [foldl].
  by rewrite Hret, IHt, IHr.
Qed.

Lemma entries_KVStore_new C p d : entries (KVStore_new C p d).1 = [].
Proof.
  unfold KVStore_new. destruct p; [done|].
  destruct (ofstream_open_app _ _) as [f d']. by destruct (os_is_open f).
Qed.

Lemma run_model_new C p d cs :
  entries (run cs (KVStore_new C p d).1 (KVStore_new C p d).2).1 =
  model_run C cs [].
Proof.
  destruct (run_model cs (KVStore_new C p d).1 (KVStore_new C p d).2
              (wf_KVStore_new C p d)) as [_ ->].
  by rewrite KVStore_new_max_capacity, entries_KVStore_new.
Qed.

Lemma model_run_snoc C cs (cl : Call) m :
  model_run C (cs ++ [cl]) m = (model_call C cl (model_run C cs m)).2.
Proof. unfold model_run. by rewrite foldl_app. Qed.

Lemma removelast_take {A} (j : nat) (r : list A) :
  S j ≤ length r → removelast (take (S j) r) = take j r.
Proof.
  intros Hlen. destruct (lookup_lt_is_Some_2 r j) as [x Hx]; [lia|].
  by rewrite (take_S_r _ _ _ Hx), removelast_last.
Qed.

(** Putting entries with distinct keys into the empty list keeps the last
    ones put, most recent first; capacity 0 behaves as capacity 1. *)
Lemma model_run_distinct_puts C (ps : list (string * string)) :
  NoDup ps.*1 →
  model_run C ((λ e, CallPut e.1 e.2) <$> ps) [] =
  take (max 1 C) (reverse ps).
Proof.
  induction ps as [|[k v] ps IH] using rev_ind; intros Hnd.
  { by destruct (max 1 C). }
  rewrite fmap_app in Hnd. apply NoDup_app in Hnd as (Hnd & Hdisj & _).
  rewrite fmap_app.
  change ((λ e, CallPut e.1 e.2) <$> [(k, v)]) with [CallPut k v].
  rewrite model_run_snoc, IH, reverse_snoc by done.
  cbn [model_call fst snd].
  rewrite assoc_None.
  2:{ rewrite fmap_take, fmap_reverse. intros Hin%subseteq_take.
      rewrite elem_of_reverse in Hin. apply (Hdisj k Hin). csimpl. left. }
  rewrite length_take, length_reverse.
  destruct (decide (S (length ps) ≤ max 1 C)) as [Hsmall|Hbig].
  - rewrite (take_ge (_ :: _)) by (simpl; rewrite length_reverse; lia).
    rewrite take_ge by (rewrite length_reverse; lia).
    case_decide; [|done].
    destruct ps as [|p ps']; [done|]. simpl in *. lia.
  - rewrite decide_True by lia.
    destruct (max 1 C) as [|j] eqn:Hmax; [lia|]. simpl. f_equal.
    apply removelast_take. rewrite length_reverse. lia.
Qed.

Lemma drop_key_length k m :
  is_Some (assoc k m) → length (drop_key k m) < length m.
Proof.
  unfold drop_key. induction m as [|e m IH]; simpl; [by intros [? [=]]|].
  rewrite filter_cons. destruct (decide (e.1 = k)) as [Heq|Hne].
  - intros _. rewrite decide_False by (intros Hne; by apply Hne).
    pose proof (length_filter (λ e, e.1 ≠ k) m). lia.
  - intros Hk. rewrite decide_True by done. simpl.
    specialize (IH Hk). lia.
Qed.

(** The list never grows beyond the capacity, taken as 1 when it is 0. *)
Lemma model_call_length C (cl : Call) m :
  length m ≤ max 1 C → length (model_call C cl m).2 ≤ max 1 C.
Proof.
  intros Hlen. destruct cl as [k v|k|k|k| |]; simpl; try done; try lia.
  - destruct (assoc k m) as [v'|] eqn:Hk.
    + pose proof (drop_key_length k m) as Hlt. rewrite Hk in Hlt.
      simpl. specialize (Hlt (mk_is_Some _ _ eq_refl)). lia.
    + case_decide; simpl; [|lia].
      destruct m as [|e m] using rev_ind; [simpl; lia|].
      rewrite removelast_last. rewrite length_app in Hlen. simpl in Hlen. lia.
  - destruct (assoc k m) as [v'|] eqn:Hk; [|done].
    pose proof (drop_key_length k m) as Hlt. rewrite Hk in Hlt.
    simpl. specialize (Hlt (mk_is_Some _ _ eq_refl)). lia.
  - destruct (assoc k m) as [v'|] eqn:Hk; [|done].
    pose proof (drop_key_length k m) as Hlt. rewrite Hk in Hlt.
    simpl. specialize (Hlt (mk_is_Some _ _ eq_refl)). lia.
Qed.

Lemma model_run_length C cs m :
  length m ≤ max 1 C → length (model_run C cs m) ≤ max 1 C.
Proof.
  revert m. induction cs as [|cl cs IH]; intros m Hlen; [done|].
  apply IH. by apply model_call_length.
Qed.
End model_sequences.

(** X1. Whatever the capacity and the log, a constructed store behaves on
    every sequence of calls as the list model does from the empty list: the
    calls return the same values, and the entries of the store in recency
    order are the list the model leaves. *)
Theorem store_refines_assoc_list
    (C : nat) (wal_path : string) (d : Disk) (cs : list Call) :
  let w0 := KVStore_new C wal_path d in
  trace cs w0.1 w0.2 = model_trace C cs [] ∧
  entries (run cs w0.1 w0.2).1 = model_run C cs [].
Proof.
  intros w0. unfold w0.
  destruct (run_model cs (KVStore_new C wal_path d).1
              (KVStore_new C wal_path d).2 (wf_KVStore_new C wal_path d))
    as [-> ->].
  by rewrite KVStore_new_max_capacity, entries_KVStore_new.
Qed.

(** X2. After [put] of entries with pairwise distinct keys into a new store
    of capacity [C], the store holds the last [C] of them (the last one when
    [C] is 0), most recently put first: the earlier ones were evicted in the
    order they were put. *)
Theorem distinct_puts_keep_most_recent
    (C : nat) (wal_path : string) (d : Disk) (ps : list (string * string)) :
  NoDup ps.*1 →
  let w0 := KVStore_new C wal_path d in
  entries (run ((λ e, CallPut e.1 e.2) <$> ps) w0.1 w0.2).1 =
  take (max 1 C) (reverse ps).
Proof.
  intros Hnd w0. unfold w0. rewrite run_model_new.
  by apply model_run_distinct_puts.
Qed.

Lemma distinct_puts_keep_most_recent_witness :
  let w0 := KVStore_new 3 "wal.log" ∅ in
  entries (run [CallPut "key1" "value1"; CallPut "key2" "value2";
                CallPut "key3" "value3"; CallPut "key4" "value4"]
               w0.1 w0.2).1 =
  [("key4", "value4"); ("key3", "value3"); ("key2", "value2")].
Proof.
  apply (distinct_puts_keep_most_recent 3 "wal.log" ∅
           [("key1", "value1"); ("key2", "value2"); ("key3", "value3");
            ("key4", "value4")]).
  change (NoDup ["key1"; "key2"; "key3"; "key4"]).
  repeat (apply NoDup_cons_2; [solve_elem_of|]). apply NoDup_nil_2.
Defined.

(** X3. A store never holds more entries than its capacity, except that a
    store of capacity 0 holds one: after any sequence of calls [size()] is at
    most the larger of 1 and the capacity, and a further [put] always leaves
    at least one entry. *)
Theorem size_bound_any_capacity
    (C : nat) (wal_path : string) (d d' : Disk) (cs : list Call)
    (key val : string) :
  let w0 := KVStore_new C wal_path d in
  let s := (run cs w0.1 w0.2).1 in
  size_ s ≤ max 1 C ∧
  1 ≤ size_ (put key val s d').1.2 ∧
  size_ (put key val s d').1.2 ≤ max 1 C.
Proof.
  intros w0 s.
  assert (∀ cs', size_ (run cs' w0.1 w0.2).1 ≤ max 1 C) as Hbound.
  { intros cs'. unfold size_.
    rewrite <- entries_length by apply wf_run.
    unfold w0. rewrite run_model_new.
    apply model_run_length. simpl. lia. }
  split_and!.
  - apply Hbound.
  - destruct (put_then_observe key val s d') as (_ & Hin & _).
    apply elem_of_dom in Hin. unfold size_.
    destruct (decide (size (cache_ (put key val s d').1.2) = 0)) as [Hz|]; [|lia].
    apply map_size_empty_iff in Hz. rewrite Hz in Hin.
    by destruct Hin as [? [=]].
  - specialize (Hbound (cs ++ [CallPut key val])).
    unfold run in Hbound. rewrite foldl_app in Hbound. simpl in Hbound.
    exact Hbound.
Qed.

(** ** The log file under arbitrary calls *)

Section log_file.
Implicit Types (k v key val p q : string) (s : KVStore) (d : Disk).
Implicit Types (cl : Call) (cs : list Call) (f : File).

Lemma run_disk_no_wal cs s d : wal_file_ s = None → (run cs s d).2 = d.
Proof.
  revert s d. induction cs as [|cl cs IH]; intros s d Hw; [done|].
  rewrite run_cons, IH by (by rewrite call_wal_file).
  by apply call_disk_no_wal.
Qed.

Lemma write_wal_other operation key val s d p q :
  wal_file_ s = Some (mkOfstream p true) → q ≠ p →
  write_wal operation key val s d !! q = d !! q.
Proof.
  intros Hw Hq. unfold write_wal, ofstream_write. rewrite Hw; simpl.
  by rewrite lookup_alter_ne.
Qed.

Lemma call_other_paths cl s d p q :
  wal_file_ s = Some (mkOfstream p true) → q ≠ p →
  (call cl s d).2 !! q = d !! q.
Proof.
  intros Hw Hq. destruct cl as [k v|k|k|k| |]; unfold call; try done.
  - pose proof (call_wal_file (CallPut k v) s d) as Hw'.
    rewrite call_state, Hw in Hw'. simpl.
    by apply (write_wal_other _ _ _ _ _ p).
  - by destruct (get k s).
  - unfold del. destruct (cache_ s !! k); [|done]. simpl.
    by apply (write_wal_other _ _ _ _ _ p).
  - simpl. by apply (write_wal_other _ _ _ _ _ p).
Qed.

(** With the stream open, calls only append to the file behind it. *)
Lemma run_append cs s d p f :
  wal_file_ s = Some (mkOfstream p true) → d !! p = Some f →
  (∃ text, (run cs s d).2 !! p =
           Some (mkFile (f_data f +:+ text) (f_readable f) (f_writable f))) ∧
  ∀ q, q ≠ p → (run cs s d).2 !! q = d !! q.
Proof.
  revert s d f. induction cs as [|cl cs IH]; intros s d f Hw Hf.
  { split; [|done]. exists "". rewrite string_app_nil_r. by destruct f. }
  rewrite run_cons.
  pose proof (call_log cl s d p f Hw Hf) as Hf1.
  destruct (IH (call cl s d).1.2 (call cl s d).2 _
               (eq_trans (call_wal_file cl s d) Hw) Hf1)
    as [[text Hlog] Hother].
  simpl in Hlog. split.
  - exists (appended cl s +:+ text). by rewrite <- string_app_assoc.
  - intros q Hq. rewrite Hother by done. by apply (call_other_paths _ _ _ p).
Qed.

Lemma KVStore_new_unwritable C p d f :
  d !! p = Some f → f_writable f = false →
  KVStore_new C p d = (mkKVStore ∅ [] 0 C p None, d).
Proof.
  intros Hf Hw. unfold KVStore_new, ofstream_open_app.
  destruct p; [done|]. rewrite Hf; simpl. by rewrite Hw.
Qed.

Lemma recover_unreadable s d :
  wal_path_ s = "" ∨ ifstream_open (wal_path_ s) d = None →
  recover s d = (false, s, d).
Proof.
  intros Hno. unfold recover. destruct (wal_path_ s) eqn:Hp; [done|].
  destruct Hno as [Hno|Hno]; [done|]. by rewrite Hno.
Qed.
End log_file.

(** X4. A store constructed without a log path, or over a file that cannot
    be opened for writing, has no stream ([wal_file_] is null), and no
    sequence of calls writes anything to the disk. *)
Theorem disabled_log_never_written
    (C : nat) (wal_path : string) (d : Disk) (cs : list Call) :
  wal_path = "" ∨ (∃ f, d !! wal_path = Some f ∧ f_writable f = false) →
  let w0 := KVStore_new C wal_path d in
  wal_file_ w0.1 = None ∧ (run cs w0.1 w0.2).2 = d.
Proof.
  intros Hno w0.
  assert (wal_file_ w0.1 = None ∧ w0.2 = d) as [Hw Hd].
  { unfold w0. destruct Hno as [->|(f & Hf & Hun)]; [done|].
    by rewrite (KVStore_new_unwritable C wal_path d f). }
  split; [done|]. by rewrite run_disk_no_wal, Hd.
Qed.

Lemma disabled_log_never_written_witness :
  let d : Disk := {[ "ro.log" := mkFile "PUT a 1" true false ]} in
  let w0 := KVStore_new 3 "ro.log" d in
  wal_file_ w0.1 = None ∧
  (run [CallPut "x" "1"; CallDel "x"; CallClear] w0.1 w0.2).2 = d.
Proof.
  intros d. apply (disabled_log_never_written 3 "ro.log" d).
  right. exists (mkFile "PUT a 1" true false). by split.
Defined.

(** X5. The log is append-only, and it is the only file touched: after any
    sequence of calls on a store constructed over a path, the file at the
    path holds what it held before construction (nothing when it did not
    exist) followed by the text appended, and every other path of the disk is
    as it was. *)
Theorem log_is_append_only
    (C : nat) (wal_path : string) (d : Disk) (cs : list Call) :
  wal_path ≠ "" →
  let w0 := KVStore_new C wal_path d in
  let d' := (run cs w0.1 w0.2).2 in
  (∃ text,
     file_data wal_path d' =
     Some (default "" (file_data wal_path d) +:+ text)) ∧
  ∀ q, q ≠ wal_path → d' !! q = d !! q.
Proof.
  intros Hp w0 d'. unfold d', w0, file_data.
  destruct (d !! wal_path) as [f|] eqn:Hf; simpl.
  - destruct (f_writable f) eqn:Hw.
    + rewrite (KVStore_new_reopen C wal_path d f) by done. simpl.
      destruct (run_append cs
                  (mkKVStore ∅ [] 0 C wal_path (Some (mkOfstream wal_path true)))
                  d wal_path f eq_refl Hf) as [[text Hlog] Hother].
      split; [|done]. exists text. by rewrite Hlog.
    + rewrite (KVStore_new_unwritable C wal_path d f) by done. simpl.
      rewrite run_disk_no_wal by done. split; [|done].
      exists "". by rewrite Hf, string_app_nil_r.
  - destruct (KVStore_new_log C wal_path d Hp (or_introl Hf))
      as (d0 & Hnew & Hd0).
    assert (d0 = <[wal_path := mkFile "" true true]> d) as Hd0'.
    { revert Hnew. unfold KVStore_new, ofstream_open_app.
      destruct wal_path; [done|]. rewrite Hf; simpl. congruence. }
    rewrite Hnew. simpl.
    destruct (run_append cs
                (mkKVStore ∅ [] 0 C wal_path (Some (mkOfstream wal_path true)))
                d0 wal_path _ eq_refl Hd0) as [[text Hlog] Hother].
    split.
    + exists text. by rewrite Hlog.
    + intros q Hq. rewrite Hother by done. subst d0.
      by rewrite lookup_insert_ne.
Qed.

Lemma log_is_append_only_witness :
  let d : Disk := {[ "wal.log" := mkFile (unlines ["PUT a 1"]) true true;
                     "other" := mkFile "data" true true ]} in
  let w0 := KVStore_new 3 "wal.log" d in
  let d' := (run [CallPut "b" "2"; CallGet "b"; CallDel "b"] w0.1 w0.2).2 in
  (∃ text, file_data "wal.log" d' = Some (unlines ["PUT a 1"] +:+ text)) ∧
  ∀ q, q ≠ "wal.log" → d' !! q = d !! q.
Proof.
  intros d. apply (log_is_append_only 3 "wal.log" d). done.
Defined.

(** X6. [recover()] never writes to the disk and gives the stream back:
    [wal_file_], [wal_path_] and the capacity are as before the call, and a
    store that satisfies the representation invariant within a positive
    capacity still does afterwards. *)
Theorem recover_keeps_log_and_bound (C : nat) (s : KVStore) (d : Disk) :
  0 < C → inv C s →
  let r := recover s d in
  r.2 = d ∧
  wal_file_ r.1.2 = wal_file_ s ∧
  wal_path_ r.1.2 = wal_path_ s ∧
  inv C r.1.2.
Proof.
  intros HC Hinv r. unfold r.
  destruct (decide (wal_path_ s = "")) as [Hp|Hp].
  { rewrite recover_unreadable by auto. done. }
  destruct (ifstream_open (wal_path_ s) d) as [content|] eqn:Hopen.
  - rewrite (recover_readable s d content) by done. simpl.
    split_and!; [done|apply run_wal_file|apply run_wal_path|].
    apply (run_ind (inv C)); [|done]. intros. by apply inv_call.
  - rewrite recover_unreadable by auto. done.
Qed.

Lemma recover_keeps_log_and_bound_witness :
  let d : Disk :=
    {[ "wal.log" := mkFile (unlines ["PUT a 1"; "PUT b 2"; "PUT c 3"])
                           true true ]} in
  let s := (KVStore_new 2 "wal.log" d).1 in
  let r := recover s d in
  r.2 = d ∧
  wal_file_ r.1.2 = wal_file_ s ∧
  wal_path_ r.1.2 = wal_path_ s ∧
  inv 2 r.1.2.
Proof.
  intros d s.
  apply (recover_keeps_log_and_bound 2 s d); [lia|].
  apply inv_KVStore_new.
Defined.

(** ** What the replay loop reads *)

Section reading.
Implicit Types (k v key val line p : string) (s : KVStore) (d : Disk).
Implicit Types (cl : Call) (cs : list Call) (c : ascii).

Lemma extract_skip c line : isspace c = true → extract (String c line) = extract line.
Proof. intros Hc. unfold extract. cbn [skipws]. by rewrite Hc. Qed.

Lemma replay_line_skip c line s d :
  isspace c = true → replay_line (String c line) s d = replay_line line s d.
Proof. intros Hc. unfold replay_line. by rewrite extract_skip. Qed.

(** A [PUT] line with a space after the key decodes to the key and what
    follows that space, empty or not. *)
Lemma decode_put_line_space k v :
  key_no_whitespace k = true → no_newline v = true →
  decode_line ("PUT" +:+ " " +:+ k +:+ " " +:+ v) = Some (CallPut k v).
Proof.
  intros Hk Hv. destruct v as [|c v'].
  - unfold decode_line.
    change (extract ("PUT" +:+ " " +:+ ?r)) with (Some ("PUT", String space r)).
    cbv beta iota. rewrite decide_True by done.
    by rewrite extract_key.
  - by apply (decode_put_line k (String c v')).
Qed.

Lemma decode_del_line_rest k c rest :
  key_no_whitespace k = true → isspace c = true →
  decode_line ("DEL" +:+ " " +:+ k +:+ String c rest) = Some (CallDel k).
Proof.
  intros Hk Hc. unfold decode_line.
  change (extract ("DEL" +:+ " " +:+ ?r)) with (Some ("DEL", String space r)).
  cbv beta iota. rewrite decide_False, decide_True by done.
  by rewrite extract_key.
Qed.

Lemma decode_clear_line_rest c rest :
  isspace c = true → decode_line ("CLEAR" +:+ String c rest) = Some CallClear.
Proof.
  intros Hc. unfold decode_line, extract.
  change (skipws ("CLEAR" +:+ String c rest))
    with ("CLEAR" +:+ String c rest).
  by rewrite read_word_stop.
Qed.
End reading.

(** X7. The replay loop reads records loosely: whitespace before the
    operation name is skipped, whatever follows the key of a [DEL] record is
    ignored, and so is whatever follows the name [CLEAR]. *)
Theorem replay_reads_records_loosely
    (k rest line : string) (c : ascii) (s : KVStore) (d : Disk) :
  key_no_whitespace k = true → isspace c = true →
  replay_line (String c line) s d = replay_line line s d ∧
  replay_line ("DEL" +:+ " " +:+ k +:+ String c rest) s d =
    ((del k s d).1.2, (del k s d).2) ∧
  replay_line ("CLEAR" +:+ String c rest) s d = clear s d.
Proof.
  intros Hk Hc. split_and!.
  - by apply replay_line_skip.
  - rewrite replay_line_decode, decode_del_line_rest by done.
    unfold call. by destruct (del k s d) as [[??]?].
  - by rewrite replay_line_decode, decode_clear_line_rest.
Qed.

Lemma replay_reads_records_loosely_witness :
  let w := run [CallPut "a" "1"; CallPut "b" "2"]
               (KVStore_new 3 "" ∅).1 (KVStore_new 3 "" ∅).2 in
  replay_line "  DEL a" w.1 w.2 = replay_line " DEL a" w.1 w.2 ∧
  lru_keys (replay_line "DEL a and more" w.1 w.2).1 = ["b"] ∧
  lru_keys (replay_line "CLEAR all" w.1 w.2).1 = [].
Proof.
  intros w.
  destruct (replay_reads_records_loosely "a" "and more" " DEL a" " " w.1 w.2
              eq_refl eq_refl) as (H1 & H2 & _).
  destruct (replay_reads_records_loosely "a" "all" " DEL a" " " w.1 w.2
              eq_refl eq_refl) as (_ & _ & H3).
  split_and!.
  - exact H1.
  - change "DEL a and more" with ("DEL" +:+ " " +:+ "a" +:+ String " " "and more").
    by rewrite H2.
  - change "CLEAR all" with ("CLEAR" +:+ String " " "all"). by rewrite H3.
Defined.

(** ** Round trips in general *)

Section journal.
Implicit Types (k v key val line p : string) (s : KVStore) (d : Disk).
Implicit Types (cl : Call) (cs : list Call) (f : File).

(** The round trip, given the text the first store leaves in the log: the
    second store is the result of the calls the text decodes to. *)
Lemma round_trip_text C p d cs text :
  p ≠ "" → log_fresh p d →
  let w0 := KVStore_new C p d in
  (run cs w0.1 w0.2).2 !! p = Some (mkFile text true true) →
  round_trip C p d cs =
  ((run cs w0.1 w0.2).1,
   (true, (run (omap decode_line (getlines text)) w0.1 w0.2).1)).
Proof.
  intros Hp Hfresh w0. unfold w0, round_trip.
  destruct (KVStore_new_log C p d Hp Hfresh) as (d0 & -> & Hd0).
  set (s0 := mkKVStore ∅ [] 0 C p (Some (mkOfstream p true))).
  simpl. destruct (run cs s0 d0) as [s1 d1] eqn:Hrun. simpl. intros Hlog.
  rewrite (KVStore_new_reopen C p d1 _ Hp Hlog eq_refl). fold s0.
  rewrite (recover_readable s0 d1 text); [|done|].
  - by rewrite (run_state_disk _ s0 d1 d0).
  - unfold ifstream_open. simpl. by rewrite Hlog.
Qed.

Lemma round_trip_fst C p d cs :
  (round_trip C p d cs).1 =
  (run cs (KVStore_new C p d).1 (KVStore_new C p d).2).1.
Proof.
  unfold round_trip. destruct (KVStore_new C p d) as [s0 d0]. simpl.
  destruct (run cs s0 d0) as [s1 d1]. simpl.
  destruct (KVStore_new C p d1) as [s2 d2].
  by destruct (recover s2 d2) as [[??]?].
Qed.

Lemma logged_line_mutating cl s line :
  logged_line cl s = Some line → mutating cl = true.
Proof. by destruct cl. Qed.

(** The text a sequence of journalable calls leaves in the log decodes to
    the calls that wrote a record. *)
Lemma run_log_any p cs s d f :
  wal_file_ s = Some (mkOfstream p true) → d !! p = Some f →
  forallb journalable cs = true →
  ∃ text,
    (run cs s d).2 !! p =
      Some (mkFile (f_data f +:+ text) (f_readable f) (f_writable f)) ∧
    omap decode_line (getlines text) = logged_calls cs s.
Proof.
  revert s d f. induction cs as [|cl cs IH]; intros s d f Hw Hf Hcs.
  { exists "". rewrite string_app_nil_r. split; [by destruct f|done]. }
  simpl in Hcs. apply andb_prop in Hcs as [Hcl Hcs].
  rewrite run_cons.
  pose proof (call_log cl s d p f Hw Hf) as Hf1.
  destruct (IH (call cl s d).1.2 (call cl s d).2 _
               (eq_trans (call_wal_file cl s d) Hw) Hf1 Hcs)
    as (text & Hlog & Hdec).
  simpl in Hlog. exists (appended cl s +:+ text).
  split; [by rewrite <- string_app_assoc|].
  cbn [logged_calls]. rewrite (call_state_disk cl s ∅ d).
  unfold appended. destruct (logged_line cl s) as [line|] eqn:Hline.
  - assert (roundtrip_call key_no_whitespace cl = true) as Hrt.
    { unfold journalable in Hcl.
      by rewrite (logged_line_mutating cl s line Hline) in Hcl. }
    destruct (logged_line_decode cl s line Hrt Hline) as [Hnl Hd].
    rewrite string_app_assoc, getlines_line by done.
    rewrite <- Hdec. change (omap decode_line (line :: ?ls))
      with (match decode_line line with
            | Some c => c :: omap decode_line ls
            | None => omap decode_line ls
            end).
    by rewrite Hd.
  - by rewrite string_app_nil_l.
Qed.

Lemma logged_calls_sublist cs s : logged_calls cs s `sublist_of` cs.
Proof.
  revert s. induction cs as [|cl cs IH]; intros s; [done|].
  cbn [logged_calls]. destruct (logged_line cl s).
  - by apply sublist_skip.
  - by apply sublist_cons.
Qed.

Lemma logged_calls_mutating cs s : forallb mutating (logged_calls cs s) = true.
Proof.
  revert s. induction cs as [|cl cs IH]; intros s; [done|].
  cbn [logged_calls]. destruct (logged_line cl s) as [line|] eqn:Hline; [|done].
  simpl. by rewrite (logged_line_mutating cl s line Hline), IH.
Qed.

Lemma round_trip_journal C p d cs :
  p ≠ "" → log_fresh p d → forallb journalable cs = true →
  let w0 := KVStore_new C p d in
  round_trip C p d cs =
  ((run cs w0.1 w0.2).1, (true, (run (logged_calls cs w0.1) w0.1 w0.2).1)).
Proof.
  intros Hp Hfresh Hcs w0.
  destruct (KVStore_new_log C p d Hp Hfresh) as (d0 & Hnew & Hd0).
  destruct (run_log_any p cs w0.1 w0.2 _
              ltac:(unfold w0; by rewrite Hnew)
              ltac:(unfold w0; rewrite Hnew; exact Hd0) Hcs)
    as (text & Hlog & Hdec).
  simpl in Hlog. rewrite string_app_nil_l in Hlog.
  rewrite (round_trip_text C p d cs text Hp Hfresh Hlog).
  fold w0. by rewrite Hdec.
Qed.
End journal.

(** X8. The recovered store is the result of the calls that wrote a record,
    and of those only.  For any sequence of calls, reads included, whose
    [put] and [del] keys are not empty and hold no whitespace and whose
    values hold no newline, run on a store with a new or empty log: a second
    store constructed over the log recovers to the state reached by running,
    from a new store, the calls that were logged; these are some of the
    [put], [del] and [clear] calls of the sequence, in their order. *)
Theorem recovery_replays_logged_calls
    (C : nat) (wal_path : string) (d : Disk) (cs : list Call) :
  wal_path ≠ "" → log_fresh wal_path d → forallb journalable cs = true →
  let w0 := KVStore_new C wal_path d in
  let r := round_trip C wal_path d cs in
  r.2 = (true, (run (logged_calls cs w0.1) w0.1 w0.2).1) ∧
  logged_calls cs w0.1 `sublist_of` cs ∧
  forallb mutating (logged_calls cs w0.1) = true.
Proof.
  intros Hp Hfresh Hcs w0 r. unfold r.
  rewrite (round_trip_journal C wal_path d cs Hp Hfresh Hcs).
  split_and!; [done|apply logged_calls_sublist|apply logged_calls_mutating].
Qed.

Lemma recovery_replays_logged_calls_witness :
  let cs := [CallPut "a" "1"; CallGet "a"; CallDel "zz"; CallExists "a";
             CallPut "b" "2"; CallSize; CallDel "a"] in
  let w0 := KVStore_new 2 "wal.log" ∅ in
  let r := round_trip 2 "wal.log" ∅ cs in
  (r.2 = (true, (run [CallPut "a" "1"; CallPut "b" "2"; CallDel "a"]
                     w0.1 w0.2).1) ∧
   [CallPut "a" "1"; CallPut "b" "2"; CallDel "a"] `sublist_of` cs ∧
   forallb mutating [CallPut "a" "1"; CallPut "b" "2"; CallDel "a"] = true).
Proof.
  intros cs w0 r.
  assert (logged_calls cs w0.1 =
          [CallPut "a" "1"; CallPut "b" "2"; CallDel "a"]) as <-
    by reflexivity.
  apply (recovery_replays_logged_calls 2 "wal.log" ∅ cs); [done|by left|done].
Defined.

(** X9. A newline in a value is written as it is, so the record breaks in
    two: after [put(k, v1 + newline + v2)] on a store with a new or empty
    log, the store holds the whole value under [k], but a second store
    recovering from the log holds [v1] under [k] and has then replayed the
    line [v2] as a record of its own. *)
Theorem newline_in_value_splits_record
    (C : nat) (wal_path : string) (d : Disk) (k v1 v2 : string) :
  wal_path ≠ "" → log_fresh wal_path d →
  key_no_whitespace k = true → no_newline v1 = true →
  let w0 := KVStore_new C wal_path d in
  let r := round_trip C wal_path d [CallPut k (v1 +:+ endl +:+ v2)] in
  contents r.1 !! k = Some (v1 +:+ endl +:+ v2) ∧
  r.2 = (true,
         (run (CallPut k v1 :: omap decode_line (getlines (v2 +:+ endl)))
              w0.1 w0.2).1).
Proof.
  intros Hp Hfresh Hk Hv1 w0 r. unfold r.
  set (val := v1 +:+ endl +:+ v2).
  set (line := "PUT" +:+ " " +:+ k +:+ " " +:+ v1).
  assert ((run [CallPut k val] w0.1 w0.2).2 !! wal_path =
          Some (mkFile (line +:+ endl +:+ (v2 +:+ endl)) true true)) as Hlog.
  { destruct (KVStore_new_log C wal_path d Hp Hfresh) as (d0 & Hnew & Hd0).
    unfold w0. rewrite Hnew. cbn [fst snd].
    change (run [CallPut k val] ?s ?d').2 with (call (CallPut k val) s d').2.
    rewrite (call_log (CallPut k val)
               (mkKVStore ∅ [] 0 C wal_path (Some (mkOfstream wal_path true)))
               d0 wal_path _ eq_refl Hd0). simpl.
    do 2 f_equal. unfold appended, logged_line, line.
    assert (∃ c v', val = String c v') as (c & v' & Hval).
    { unfold val, endl. destruct v1; simpl; eauto. }
    rewrite Hval, <- Hval. unfold val.
    by rewrite !string_app_nil_l, !string_app_assoc. }
  rewrite (round_trip_text C wal_path d _ _ Hp Hfresh Hlog). fold w0.
  split.
  - simpl. unfold contents. rewrite lookup_fmap.
    apply (put_lookup k val w0.1 w0.2).
  - cbn [fst snd]. do 2 f_equal.
    rewrite getlines_line.
    + change (omap decode_line (line :: ?ls))
        with (match decode_line line with
              | Some c => c :: omap decode_line ls
              | None => omap decode_line ls
              end).
      unfold line. by rewrite decode_put_line_space.
    + pose proof Hk as [_ Hws%no_whitespace_no_newline]%andb_prop.
      unfold line, no_newline in *.
      by rewrite !string_forall_app, Hws, Hv1.
Qed.

Lemma newline_in_value_splits_record_witness :
  let r := round_trip 3 "wal.log" ∅ [CallPut "k" ("x" +:+ endl +:+ "CLEAR")] in
  (contents r.1 !! "k" = Some ("x" +:+ endl +:+ "CLEAR") ∧
   r.2 = (true, (run [CallPut "k" "x"; CallClear]
                     (KVStore_new 3 "wal.log" ∅).1
                     (KVStore_new 3 "wal.log" ∅).2).1)) ∧
  lru_keys r.1 = ["k"] ∧ lru_keys r.2.2 = [].
Proof.
  intros r. split; [|by split].
  apply (newline_in_value_splits_record 3 "wal.log" ∅ "k" "x" "CLEAR");
    [done|by left|done|done].
Defined.

(** X10. Reads are not journaled, so recovery need not reproduce the
    residents.  With capacity 2 and three distinct keys, after [put(a)],
    [put(b)], [get(a)] and [put(c)] the store holds [c] and [a], the [get]
    having saved [a] from eviction; a second store recovering from the log
    holds [c] and [b]. *)
Theorem reads_are_not_journaled
    (wal_path : string) (d : Disk) (a b c va vb vc : string) :
  wal_path ≠ "" → log_fresh wal_path d → NoDup [a; b; c] →
  forallb key_no_whitespace [a; b; c] = true →
  forallb no_newline [va; vb; vc] = true →
  let r := round_trip 2 wal_path d
             [CallPut a va; CallPut b vb; CallGet a; CallPut c vc] in
  r.2.1 = true ∧
  entries r.1 = [(c, vc); (a, va)] ∧
  entries r.2.2 = [(c, vc); (b, vb)].
Proof.
  intros Hp Hfresh Hnd Hks Hvs r. unfold r.
  apply NoDup_cons in Hnd as [Ha Hnd]. apply NoDup_cons in Hnd as [Hb _].
  assert (a ≠ b ∧ a ≠ c ∧ b ≠ c) as (Hab & Hac & Hbc).
  { revert Ha Hb. solve_elem_of. }
  simpl in Hks, Hvs.
  apply andb_prop in Hks as [Hka Hks]. apply andb_prop in Hks as [Hkb Hks].
  apply andb_prop in Hks as [Hkc _].
  apply andb_prop in Hvs as [Hva Hvs]. apply andb_prop in Hvs as [Hvb Hvs].
  apply andb_prop in Hvs as [Hvc _].
  rewrite (round_trip_journal 2 wal_path d _ Hp Hfresh).
  2:{ unfold journalable. simpl. by rewrite Hka, Hkb, Hkc, Hva, Hvb, Hvc. }
  cbn [fst snd logged_calls logged_line].
  rewrite !run_model_new. unfold model_run. cbn [foldl model_call fst snd assoc].
  split; [done|].
  unfold drop_key.
  repeat first
    [ rewrite decide_True by (simpl; first [done|lia])
    | rewrite decide_False by (simpl; first [congruence|lia])
    | rewrite filter_cons_True by (simpl; congruence)
    | rewrite filter_cons_False by (simpl; congruence)
    | rewrite filter_nil
    | progress cbn [assoc fst snd length removelast] ].
  done.
Qed.

Lemma reads_are_not_journaled_witness :
  let r := round_trip 2 "wal.log" ∅
             [CallPut "a" "1"; CallPut "b" "2"; CallGet "a"; CallPut "c" "3"] in
  r.2.1 = true ∧
  entries r.1 = [("c", "3"); ("a", "1")] ∧
  entries r.2.2 = [("c", "3"); ("b", "2")].
Proof.
  apply (reads_are_not_journaled "wal.log" ∅ "a" "b" "c" "1" "2" "3");
    [done|by left| |done|done].
  repeat (apply NoDup_cons_2; [solve_elem_of|]). apply NoDup_nil_2.
Defined.

(** X11. The demonstration program prints the same results whatever the
    disk holds.  The store of capacity 5 evicts ["name"] when [key4] is put
    and ["age"] when [key5] is put, so both [exists("age")] calls of the
    program return false and its [get("age")] finds nothing; the size stays
    at 5. *)
Theorem example_main_output (d : Disk) :
  (example_main d).1 =
  [RetBool true; RetBool true; RetBool true;
   RetValue (Some "Alice"); RetValue (Some "30"); RetValue (Some "New York");
   RetSize 3;
   RetBool true; RetValue (Some "31");
   RetBool true; RetBool true; RetBool false; RetSize 2;
   RetBool true; RetBool true; RetBool true; RetBool true; RetSize 5;
   RetBool true; RetSize 5; RetBool false; RetBool false;
   RetValue None; RetBool true; RetBool false; RetBool false; RetSize 5].
Proof.
  unfold example_main. cbn [fst].
  destruct (run_model example_calls (KVStore_new 5 "demo_wal.log" d).1
              (KVStore_new 5 "demo_wal.log" d).2
              (wf_KVStore_new 5 "demo_wal.log" d)) as [-> _].
  by rewrite KVStore_new_max_capacity, entries_KVStore_new.
Qed.

(** ** What a put keeps and what it evicts *)

Lemma list_back_lru_keys (s : KVStore) :
  list_back (lru_list_ s) = last (lru_keys s).
Proof. unfold list_back, lru_keys. by rewrite fmap_last. Qed.

(** X12. [put] binds the key to the value and touches no other binding,
    except that a new key put into a store that is at (or beyond) its
    capacity first removes one entry, the one at the back of the recency
    order; putting a key that is already resident never evicts. *)
Theorem put_contents (key val : string) (s : KVStore) (d : Disk) :
  contents (put key val s d).1.2 =
  <[key := val]>
    (if decide (key ∈ dom (contents s)) then contents s
     else if decide (max_capacity_ s ≤ size_ s) then
       match last (lru_keys s) with
       | Some lru => delete lru (contents s)
       | None => contents s
       end
     else contents s).
Proof.
  unfold contents, size_, put; cbn [fst snd].
  destruct (cache_ s !! key) as [e|] eqn:He.
  - rewrite decide_True by (apply elem_of_dom; rewrite lookup_fmap, He; eauto).
    simpl. by rewrite fmap_insert.
  - rewrite (decide_False (P := key ∈ dom (value <$> cache_ s))).
    2:{ intros Hin%elem_of_dom. rewrite lookup_fmap, He in Hin.
        by destruct Hin as [? [=]]. }
    case_decide; simpl; rewrite fmap_insert; [|done].
    f_equal. unfold evict_lru. rewrite list_back_lru_keys.
    destruct (last (lru_keys s)) as [lru|]; [|done].
    simpl. by rewrite fmap_delete.
Qed.

(** ** Restarting twice *)

Lemma run_app (cs1 cs2 : list Call) (s : KVStore) (d : Disk) :
  run (cs1 ++ cs2) s d = run cs2 (run cs1 s d).1 (run cs1 s d).2.
Proof.
  unfold run. rewrite foldl_app. by destruct (foldl _ (s, d) cs1).
Qed.

(** X13. Durability carries over restarts.  For sequences of [put], [del]
    and [clear] calls with keys that are not empty and hold no whitespace and
    values without newline: a store with a new or empty log runs the first
    sequence; a second store recovers from the log and runs the second
    sequence; a third store then recovers, successfully like the second,
    to the very state the second store ended in, which is the state of a
    single store that ran both sequences. *)
Theorem recovery_composes_over_restarts
    (C : nat) (wal_path : string) (d : Disk) (cs1 cs2 : list Call) :
  wal_path ≠ "" → log_fresh wal_path d →
  forallb (roundtrip_call key_no_whitespace) cs1 = true →
  forallb (roundtrip_call key_no_whitespace) cs2 = true →
  let w0 := KVStore_new C wal_path d in
  let r := two_generations C wal_path d cs1 cs2 in
  r.2 = (true, true, r.1) ∧
  r.1 = (run (cs1 ++ cs2) w0.1 w0.2).1.
Proof.
  intros Hp Hfresh Hcs1 Hcs2 w0 r. unfold r, w0, two_generations.
  destruct (KVStore_new_log C wal_path d Hp Hfresh) as (d0 & -> & Hd0).
  set (s0 := mkKVStore ∅ [] 0 C wal_path (Some (mkOfstream wal_path true))).
  cbn [fst snd].
  destruct (run_log wal_path cs1 s0 d0 _ eq_refl Hd0 Hcs1)
    as (text1 & Hlog1 & Hrun1).
  assert (forallb (roundtrip_call key_no_whitespace) (cs1 ++ cs2) = true)
    as Hcs by (by rewrite forallb_app, Hcs1, Hcs2).
  destruct (run_log wal_path (cs1 ++ cs2) s0 d0 _ eq_refl Hd0 Hcs)
    as (text & Hlog & Hrun).
  simpl in Hlog1, Hlog. rewrite string_app_nil_l in Hlog1, Hlog.
  rewrite run_app in Hlog. rewrite (run_app cs1 cs2 s0 d0).
  destruct (run cs1 s0 d0) as [s1 d1] eqn:Hr1. cbn [fst snd] in *.
  rewrite (KVStore_new_reopen C wal_path d1 _ Hp Hlog1 eq_refl). fold s0.
  rewrite (recover_readable s0 d1 text1);
    [|done|unfold ifstream_open; simpl; by rewrite Hlog1].
  rewrite Hrun1. cbv beta iota.
  destruct (run cs2 s1 d1) as [s3 d3] eqn:Hr3. cbn [fst snd] in *.
  rewrite (KVStore_new_reopen C wal_path d3 _ Hp Hlog eq_refl). fold s0.
  rewrite (recover_readable s0 d3 text);
    [|done|unfold ifstream_open; simpl; by rewrite Hlog].
  rewrite Hrun. cbv beta iota. cbn [fst snd].
  rewrite run_app, Hr1. cbn [fst snd]. by rewrite Hr3.
Qed.

Lemma recovery_composes_over_restarts_witness :
  let cs1 := [CallPut "a" "1"; CallPut "b" "2"; CallDel "a"] in
  let cs2 := [CallPut "c" "3 4"; CallClear; CallPut "d" ""; CallPut "e" "5"] in
  let w0 := KVStore_new 2 "wal.log" ∅ in
  let r := two_generations 2 "wal.log" ∅ cs1 cs2 in
  r.2 = (true, true, r.1) ∧
  r.1 = (run (cs1 ++ cs2) w0.1 w0.2).1.
Proof.
  intros cs1 cs2.
  apply (recovery_composes_over_restarts 2 "wal.log" ∅ cs1 cs2);
    [done|by left|done|done].
Defined.

(** ** The lines [recover] reads *)

Section log_lines.
Implicit Types (ws op rest line k v r : string) (c : ascii).
Implicit Types (it : log_item) (cl : Call).

Lemma skipws_blank ws r : blank ws = true → skipws (ws +:+ r) = skipws r.
Proof.
  unfold blank. induction ws as [|c ws IH]; [done|].
  intros [Hc Hws]%andb_prop. rewrite string_app_cons. cbn [skipws].
  rewrite Hc. by apply IH.
Qed.

Lemma extract_blank_prefix ws r :
  blank ws = true → extract (ws +:+ r) = extract r.
Proof. intros Hws. unfold extract. by rewrite skipws_blank. Qed.

Lemma extract_blank ws : blank ws = true → extract ws = None.
Proof.
  intros Hws. rewrite <- (string_app_nil_r ws).
  by rewrite extract_blank_prefix.
Qed.

Lemma blank_starts_blank ws : blank ws = true → starts_blank ws = true.
Proof. destruct ws as [|c ws]; [done|]. by intros [Hc _]%andb_prop. Qed.

(** [iss >> op] reads a word that ends the line or is followed by
    whitespace. *)
Lemma extract_word op rest :
  key_no_whitespace op = true → starts_blank rest = true →
  extract (op +:+ rest) = Some (op, rest).
Proof.
  intros Hop Hrest. unfold extract. rewrite skipws_key by done.
  pose proof Hop as [Hne Hws]%andb_prop.
  destruct rest as [|c r'].
  - rewrite string_app_nil_r, read_word_all by done. by destruct op.
  - rewrite read_word_stop by done. by destruct op.
Qed.

Lemma decode_line_blank_prefix ws r :
  blank ws = true → decode_line (ws +:+ r) = decode_line r.
Proof. intros Hws. unfold decode_line. by rewrite extract_blank_prefix. Qed.

Lemma decode_record_line cl :
  roundtrip_call key_no_whitespace cl = true →
  decode_line (record_line cl) = Some cl.
Proof.
  destruct cl as [k v|k|k|k| |]; simpl; try done.
  - intros [Hk Hv]%andb_prop. by apply decode_put_line.
  - apply decode_del_line.
Qed.

(** The replay loop issues [item_call] for a line of each shape. *)
Lemma decode_item_line it :
  item_ok it = true → decode_line (item_line it) = item_call it.
Proof.
  destruct it as [cl|k c rest|c rest|ws|ws op rest|ws op ws']; simpl.
  - apply decode_record_line.
  - intros [Hk Hc]%andb_prop. by apply decode_del_line_rest.
  - apply decode_clear_line_rest.
  - intros Hws. unfold decode_line. by rewrite extract_blank.
  - intros [[[Hws Hop]%andb_prop Hrest]%andb_prop Hno]%andb_prop.
    apply bool_decide_eq_true in Hno as (Hput & Hdel & Hclear).
    rewrite decode_line_blank_prefix by done. unfold decode_line.
    rewrite extract_word by done.
    by rewrite !decide_False.
  - intros [[Hws Hop]%andb_prop Hws']%andb_prop.
    apply bool_decide_eq_true in Hop.
    rewrite decode_line_blank_prefix by done. unfold decode_line.
    rewrite extract_word; [|by destruct Hop as [-> | ->]
                           |by apply blank_starts_blank].
    destruct Hop as [-> | ->].
    + rewrite decide_True by done. by rewrite extract_blank.
    + rewrite decide_False, decide_True by done. by rewrite extract_blank.
Qed.

Lemma decode_item_lines (items : list log_item) :
  forallb item_ok items = true →
  omap decode_line (item_line <$> items) = omap item_call items.
Proof.
  induction items as [|it items IH]; [done|].
  intros [Hit Hitems]%andb_prop. rewrite fmap_cons. cbn [omap list_omap].
  by rewrite decode_item_line, IH.
Qed.
End log_lines.

(** ** What [recover] returns, and which lines it passes over *)




(** ** [recover] and a [put] of another thread *)

Section recover_steps.
Implicit Types (key val p : string) (s : KVStore) (d : Disk) (f : File).

(** With no call of another thread in between, the statements of [recover]
    make up [recover]. *)
Lemma recover_steps s d :
  recover s d =
  match recover_open s d with
  | None => (false, s, d)
  | Some (ls, temp_wal, s0) =>
      let '(s2, d2) := replay ls s0 d in
      (true, recover_close temp_wal s2, d2)
  end.
Proof.
  unfold recover, recover_open, recover_close.
  destruct (wal_path_ s); [done|]. by destruct (ifstream_open _ d).
Qed.

Lemma string_app_ne (s1 s2 : string) : s2 ≠ "" → s1 +:+ s2 ≠ s1.
Proof.
  intros Hne. induction s1 as [|c s1 IH]; [by rewrite string_app_nil_l|].
  rewrite string_app_cons. by intros [= ?].
Qed.

Lemma put_wal_file key val s d : wal_file_ (put key val s d).1.2 = wal_file_ s.
Proof.
  pose proof (call_wal_file (CallPut key val) s d) as Hw.
  by rewrite call_state in Hw.
Qed.

Lemma put_wal_path key val s d : wal_path_ (put key val s d).1.2 = wal_path_ s.
Proof.
  pose proof (call_wal_path (CallPut key val) s d) as Hp.
  by rewrite call_state in Hp.
Qed.

(** A [put] on a store whose stream is moved away changes the store as it
    does otherwise, and writes nothing. *)
Lemma put_no_wal key val s d :
  put key val (set_wal_file None s) d =
  (true, set_wal_file None (put key val s d).1.2, d).
Proof.
  pose proof (put_set_wal_file None key val s d d) as Hs.
  pose proof (call_disk_no_wal (CallPut key val) (set_wal_file None s) d
                eq_refl) as Hd.
  pose proof (put_then_observe key val (set_wal_file None s) d) as [Hb _].
  unfold call in Hd.
  destruct (put key val (set_wal_file None s) d) as [[b s1] d1].
  cbn [fst snd] in *. by subst.
Qed.

(** A [put] on a store whose stream is open appends its record. *)
Lemma put_log key val s d p f :
  wal_file_ s = Some (mkOfstream p true) → d !! p = Some f →
  (put key val s d).2 !! p =
  Some (mkFile (f_data f +:+ wal_record "PUT" key val)
               (f_readable f) (f_writable f)).
Proof.
  intros Hw Hf.
  change (put key val s d).2
    with (write_wal "PUT" key val (put key val s d).1.2 d).
  apply write_wal_lookup; [|done]. by rewrite put_wal_file.
Qed.
End recover_steps.

(** C8.  [recover()] does not run in one critical section: it takes no
    lock, and between its statement that moves [wal_file_] away and the one
    that moves it back a [put] of another thread finds no stream.  For a
    store whose log is open for appending and readable, in the schedule
    where [put(key, val)] runs right after the stream is moved away: the
    [put] returns true, the store [recover] leaves is the one on which the
    [put] and then the logged calls have run, so that it holds [key] when
    the log issues no call, and the log file is what it was before, the
    [put] having written no record.  In both sequential orders, [put] then
    [recover] and [recover] then [put], both calls return true and the log
    file ends in the record of the [put].  The schedule therefore ends with
    a log that neither order of the two calls produces. *)
Theorem put_during_recover_writes_no_record
    (key val p : string) (s : KVStore) (d : Disk) (f : File) :
  wal_path_ s = p → p ≠ "" →
  wal_file_ s = Some (mkOfstream p true) →
  d !! p = Some f → f_readable f = true →
  let logged := omap decode_line (getlines (f_data f)) in
  let record := wal_record "PUT" key val in
  let w1 := put key val s d in
  let w2 := recover s d in
  recover_put_between key val s d =
    Some (true, (run (CallPut key val :: logged) s d).1, d) ∧
  (logged = [] →
   exists_ key (run (CallPut key val :: logged) s d).1 = true) ∧
  file_data p d = Some (f_data f) ∧
  w1.1.1 = true ∧ (recover w1.1.2 w1.2).1.1 = true ∧
  file_data p (recover w1.1.2 w1.2).2 = Some (f_data f +:+ record) ∧
  w2.1.1 = true ∧ (put key val w2.1.2 w2.2).1.1 = true ∧
  file_data p (put key val w2.1.2 w2.2).2 = Some (f_data f +:+ record) ∧
  f_data f +:+ record ≠ f_data f.
Proof.
  intros <- Hp Hw Hf Hr logged record w1 w2.
  assert (ifstream_open (wal_path_ s) d = Some (f_data f)) as Hopen.
  { unfold ifstream_open. by rewrite Hf, Hr. }
  pose proof (put_log key val s d _ f Hw Hf) as Hf1. fold w1 record in Hf1.
  assert (recover w1.1.2 w1.2 =
          (true, (run (omap decode_line (getlines (f_data f +:+ record)))
                      w1.1.2 w1.2).1, w1.2)) as Hrec1.
  { apply recover_readable; unfold w1; rewrite put_wal_path; [done|].
    fold w1. unfold ifstream_open. rewrite Hf1. cbn [f_readable f_data].
    by rewrite Hr. }
  assert (w2 = (true, (run logged s d).1, d)) as Hrec2.
  { by apply recover_readable. }
  split_and!.
  - unfold recover_put_between, recover_open. rewrite Hopen.
    destruct (wal_path_ s) eqn:Hpath; [done|].
    rewrite put_no_wal. cbv beta iota.
    rewrite (replay_no_wal _ _ d d). cbv beta iota. unfold recover_close.
    rewrite run_cons, call_state.
    rewrite (run_state_disk logged _ (call (CallPut key val) s d).2 d).
    fold logged.
    rewrite <- (put_wal_file key val s d).
    rewrite <- (run_wal_file logged (put key val s d).1.2 d).
    by rewrite set_wal_file_restore.
  - intros ->. rewrite run_cons.
    change (run [] ?s' ?d').1 with s'. rewrite call_state.
    apply (put_then_observe key val s d).
  - unfold file_data. by rewrite Hf.
  - apply (put_then_observe key val s d).
  - by rewrite Hrec1.
  - rewrite Hrec1. unfold file_data. cbn [fst snd]. by rewrite Hf1.
  - by rewrite Hrec2.
  - apply (put_then_observe key val).
  - rewrite Hrec2. cbn [fst snd]. unfold file_data.
    rewrite (put_log key val _ d (wal_path_ s) f); [done| |done].
    by rewrite run_wal_file.
  - apply string_app_ne. unfold record, wal_record.
    by rewrite string_app_cons.
Qed.

Lemma put_during_recover_writes_no_record_witness :
  let w0 := KVStore_new 2 "wal.log" ∅ in
  let s := w0.1 in
  let d := w0.2 in
  let w1 := put "k" "v" s d in
  let w2 := recover s d in
  (wal_path_ s = "wal.log" ∧ wal_file_ s = Some (mkOfstream "wal.log" true) ∧
   d !! "wal.log" = Some (mkFile "" true true)) ∧
  (recover_put_between "k" "v" s d =
     Some (true, (run [CallPut "k" "v"] s d).1, d) ∧
   exists_ "k" (run [CallPut "k" "v"] s d).1 = true ∧
   file_data "wal.log" d = Some "" ∧
   file_data "wal.log" (recover w1.1.2 w1.2).2 = Some ("PUT k v" +:+ endl) ∧
   file_data "wal.log" (put "k" "v" w2.1.2 w2.2).2 =
     Some ("PUT k v" +:+ endl)).
Proof.
  intros w0 s d w1 w2. split; [done|].
  destruct (put_during_recover_writes_no_record
              "k" "v" "wal.log" s d (mkFile "" true true))
    as (Hbetween & Hexists & Hd & _ & _ & Hd1 & _ & _ & Hd2 & _);
    [done..|].
  split_and!; [exact Hbetween|by apply Hexists|exact Hd|exact Hd1|exact Hd2].
Defined.
